(** * System-health logger (main.py): a shallow embedding and its properties

    The script samples CPU, memory and disk usage plus a ping probe, stores
    each sample in the SQLite table [system_log] and prints the last rows.

    The embedding follows the source function by function.  The database
    file is a value ([database]); everything the script asks of the outside
    world (clock, psutil, the ping process, the SQLite engine, stdout,
    [time.sleep]) is an external call answered by an [environment].  Every
    external call is recorded in a trace, and a Python exception is an
    [inr] result that skips the rest of the computation.

    What the environment can do: deliver SIGINT during any call, make any
    call on the database file fail, end the ping process in any way, and
    give any clock and psutil readings.  The clock, psutil and stdout
    themselves are taken not to fail.  Printed lines are kept as data; of
    their formatting only the failure of [:5.1f] on a fetched value that is
    not a number is modelled. *)

From Stdlib Require Import ZArith Lia.
From Stdlib Require Import Floats.PrimFloat.
From stdpp Require Import base tactics option list gmap strings sorting.

Local Open Scope Z_scope.

(** ** Values *)

(** Why SQLite refuses an operation ([sqlite3.OperationalError]). *)
Inductive sqlite_reason :=
  | NoSuchTable      (* SQLITE_ERROR: no such table: system_log *)
  | DatabaseFull     (* SQLITE_FULL: the largest rowid is taken *)
  | Unwritable.      (* file unwritable, locked, disk full *)

(** Python exceptions the script can meet.  [KeyboardInterrupt] derives from
    [BaseException] only; all the others derive from [Exception]. *)
Inductive exn :=
  | KeyboardInterrupt
  | TimeoutExpired
  | CalledProcessError (returncode : Z)
  | FileNotFoundError
  | OperationalError (why : sqlite_reason)
  | IntegrityError
  | OverflowError
  | ValueError
  | TypeError.

Definition is_Exception (e : exn) : bool :=
  match e with
  | KeyboardInterrupt => false
  | _ => true
  end.

(** A value held in a column of a SQLite row. *)
Inductive sqlvalue :=
  | SNull
  | SReal (f : float)
  | SText (s : string).

(** The five data columns of a row of [system_log]; the sixth column, [id],
    is the key under which the row is stored. *)
Record sample := Sample {
  timestamp : sqlvalue;
  cpu : sqlvalue;
  memory : sqlvalue;
  disk : sqlvalue;
  ping_status_col : sqlvalue;
}.

(** A fetched row: [(id, timestamp, cpu, memory, disk, ping_status)]. *)
Definition row : Type := Z * sample.

(** The tuple [(ts, cpu, memory, disk, pstat)] built by [get_system_info]
    and passed to [insert_log]. *)
Record entry := Entry {
  e_ts : string;
  e_cpu : float;
  e_memory : float;
  e_disk : float;
  e_pstat : string;
}.

(** The table [system_log]: a rowid-keyed set of rows together with the
    counter SQLite keeps in [sqlite_sequence] for an AUTOINCREMENT key. *)
Record table := Table {
  rows : gmap Z sample;
  seq : Z;
}.

(** The database file [log.db]: [None] while it holds no table
    [system_log]. *)
Definition database : Type := option table.

Definition INT64_MAX : Z := 9223372036854775807.
Definition INT64_MIN : Z := -9223372036854775808.

Inductive statement :=
  | CreateTable                (* CREATE TABLE IF NOT EXISTS system_log (...) *)
  | Insert (e : entry)         (* INSERT INTO system_log (...) VALUES (?,?,?,?,?) *)
  | SelectRecent (limit : Z)   (* SELECT ... ORDER BY id DESC LIMIT ? *)
  | SelectDown.                (* SELECT ... WHERE ping_status = 'DOWN' ORDER BY id DESC *)

(** The lines the script prints; the formatted fields stay symbolic. *)
Inductive line :=
  | LInitializing                          (* Initializing database... *)
  | LCollecting (samples interval : Z)     (* Collecting {SAMPLES} samples every ... *)
  | LProgress (i samples : Z) (e : entry)  (* [{i+1}/{SAMPLES}] Logged at ... *)
  | LLastHeader (limit : Z)                (* === Last {limit} entries === *)
  | LNoData                                (* (No data) *)
  | LFailedHeader                          (* === Failed pings (DOWN) === *)
  | LNone                                  (* (None) *)
  | LRow (r : row)                         (* #{_id:>4} | {ts} | CPU ... *)
  | LInterrupted.                          (* Interrupted by user. Exiting... *)

(** The external calls of the script. *)
Inductive call :=
  | Now                                          (* datetime.datetime.now() *)
  | CpuPercent                                   (* psutil.cpu_percent(interval=0.5) *)
  | VirtualMemory                                (* psutil.virtual_memory() *)
  | DiskUsage                                    (* psutil.disk_usage("/") *)
  | SubprocessRun (cmd : list string) (timeout : Z)
  | Sleep (secs : Z)                             (* time.sleep *)
  | Print (l : line)
  | Connect                                      (* sqlite3.connect(DB_PATH) *)
  | Execute (s : statement)                      (* cur.execute *)
  | Commit                                       (* conn.commit() *)
  | Close.                                       (* conn.close() *)

(** One entry of the trace: the call and the exception it raised, if any. *)
Inductive event := Ev (c : call) (raised : option exn).

(** How a launched process ends. *)
Inductive proc_result :=
  | Exited (returncode : Z)
  | TimedOut
  | LaunchFailed.

(** The outside world.  Each answer may depend on everything that happened
    so far (the trace). *)
Record environment := Environment {
  sigint : list event → call → bool;          (* SIGINT arrives during this call *)
  storage_fault : list event → call → bool;   (* the database file cannot be used *)
  clock_now : list event → string;            (* strftime("%Y-%m-%d %H:%M:%S") *)
  cpu_percent : list event → float;
  virtual_memory_percent : list event → float;
  disk_usage_percent : list event → float;
  platform_system : string;
  process : list event → list string → Z → proc_result;
}.

Record world := World {
  db : database;
  trace : list event;
}.

(** ** The SQLite engine on one table *)

Definition empty_table : table := Table ∅ 0.

(** [CREATE TABLE IF NOT EXISTS]: an existing table is left alone. *)
Definition create_table_if_not_exists (d : database) : database :=
  match d with
  | Some t => Some t
  | None => Some empty_table
  end.

(** Binding a Python float: SQLite stores NaN as NULL. *)
Definition bind_real (f : float) : sqlvalue :=
  if is_nan f then SNull else SReal f.

Definition bind_entry (e : entry) : sample :=
  {| timestamp := SText (e_ts e);
     cpu := bind_real (e_cpu e);
     memory := bind_real (e_memory e);
     disk := bind_real (e_disk e);
     ping_status_col := SText (e_pstat e) |}.

Definition not_null (v : sqlvalue) : bool :=
  match v with
  | SNull => false
  | _ => true
  end.

(** The five [NOT NULL] constraints of the schema. *)
Definition populated (s : sample) : bool :=
  not_null (timestamp s) && not_null (cpu s) && not_null (memory s)
  && not_null (disk s) && not_null (ping_status_col s).

Definition rowids (m : gmap Z sample) : list Z := (map_to_list m).*1.

(** The rowid after the last one of the table: 1 for an empty table, none
    when the last one is the largest 64-bit integer. *)
Definition after_last_rowid (m : gmap Z sample) : option Z :=
  match rowids m with
  | [] => Some 1
  | k :: ks =>
      let last := foldr Z.max k ks in
      if bool_decide (INT64_MAX ≤ last) then None else Some (last + 1)
  end.

(** [INTEGER PRIMARY KEY AUTOINCREMENT]: the rowid after the last one of the
    table, or after the counter of [sqlite_sequence] if that is larger;
    SQLITE_FULL once the largest 64-bit rowid has been used. *)
Definition new_rowid (t : table) : Z + exn :=
  match after_last_rowid (rows t) with
  | Some v =>
      if bool_decide (seq t = INT64_MAX)
      then inr (OperationalError DatabaseFull)
      else inl (Z.max v (seq t + 1))
  | None => inr (OperationalError DatabaseFull)
  end.

Definition table_insert (t : table) (e : entry) : table + exn :=
  match new_rowid t with
  | inr err => inr err
  | inl id =>
      let s := bind_entry e in
      if populated s
      then inl {| rows := <[id := s]> (rows t); seq := id |}
      else inr IntegrityError
  end.

(** [ORDER BY id DESC] *)
Definition by_id_desc (r1 r2 : row) : Prop := r2.1 ≤ r1.1.

#[global] Instance by_id_desc_dec : RelDecision by_id_desc.
Proof. intros r1 r2. unfold by_id_desc. apply _. Defined.

Definition order_by_id_desc (l : list row) : list row := merge_sort by_id_desc l.

(** [LIMIT ?]: a negative limit means no limit. *)
Definition sql_limit {A} (limit : Z) (l : list A) : list A :=
  if bool_decide (limit < 0) then l else take (Z.to_nat limit) l.

Definition select_recent (limit : Z) (t : table) : list row :=
  sql_limit limit (order_by_id_desc (map_to_list (rows t))).

(** [ping_status = 'DOWN'] under the BINARY collation. *)
Definition is_down (r : row) : bool :=
  match ping_status_col r.2 with
  | SText s => bool_decide (s = "DOWN")
  | _ => false
  end.

Definition select_down (t : table) : list row :=
  order_by_id_desc (filter (λ r, is_down r = true) (map_to_list (rows t))).

(** A Python int is bound as a 64-bit SQLite INTEGER. *)
Definition fits_int64 (k : Z) : bool :=
  bool_decide (INT64_MIN ≤ k) && bool_decide (k ≤ INT64_MAX).

(** Formatting a fetched value with [:5.1f]: a float formats, [None]
    raises [TypeError] and a [str] raises [ValueError]. *)
Definition format_f (v : sqlvalue) : option exn :=
  match v with
  | SReal _ => None
  | SNull => Some TypeError
  | SText _ => Some ValueError
  end.

(** The exception, if any, raised by the f-string of a row line:
    [_id], [ts] and [pstat] format whatever they hold; [cpu], [mem] and
    [disk], in this order, must format with [:5.1f]. *)
Definition format_row (r : row) : option exn :=
  match format_f (cpu r.2) with
  | Some e => Some e
  | None =>
      match format_f (memory r.2) with
      | Some e => Some e
      | None => format_f (disk r.2)
      end
  end.

(** ** The monad of the script: state, trace and exceptions *)

Definition M (A : Type) : Type := world → (A + exn) * world.

#[global] Instance M_ret : MRet M := λ A a w, (inl a, w).

#[global] Instance M_bind : MBind M := λ A B f m w,
  match m w with
  | (inl a, w') => f a w'
  | (inr e, w') => (inr e, w')
  end.

(** [try: body / except <class>: handler] *)
Definition try_except {A} (body : M A) (catches : exn → bool) (handler : M A) : M A :=
  λ w, match body w with
       | (inr e, w') => if catches e then handler w' else (inr e, w')
       | r => r
       end.

(** [for i in range(start, start + n): body(i)] *)
Fixpoint for_range (body : Z → M unit) (start : Z) (n : nat) : M unit :=
  match n with
  | O => mret tt
  | S n' => body start ;; for_range body (start + 1) n'
  end.

Fixpoint for_each {A} (body : A → M unit) (l : list A) : M unit :=
  match l with
  | [] => mret tt
  | x :: l' => body x ;; for_each body l'
  end.

(** An open connection; [pending] is the state of its uncommitted
    transaction, if one is open. *)
Record connection := Connection { pending : option database }.

Definition lower_ascii (c : Ascii.ascii) : Ascii.ascii :=
  let n := Ascii.nat_of_ascii c in
  if bool_decide (65 ≤ n ≤ 90)%nat then Ascii.ascii_of_nat (n + 32) else c.

Fixpoint lower (s : string) : string :=
  match s with
  | EmptyString => EmptyString
  | String c s' => String (lower_ascii c) (lower s')
  end.

(** The constants of the module. *)
Definition PING_HOST : string := "google.com".
Definition SAMPLES : Z := 5.
Definition INTERVAL_SEC : Z := 10.

(** The world after call [c] ended with [o], the database untouched. *)
Definition record (w : world) (c : call) (o : option exn) : world :=
  {| db := db w; trace := trace w ++ [Ev c o] |}.

(** ** The script *)

Section Script.

Variable E : environment.

(** An external call [c]: SIGINT during the call raises [KeyboardInterrupt]
    before the call takes effect; otherwise [answer] gives its result and
    the database it leaves, or the exception it raises. *)
Definition external {A} (c : call) (answer : world → (A * database) + exn) : M A :=
  λ w,
    if sigint E (trace w) c
    then (inr KeyboardInterrupt, record w c (Some KeyboardInterrupt))
    else match answer w with
         | inl (a, d) => (inl a, {| db := d; trace := trace w ++ [Ev c None] |})
         | inr e => (inr e, record w c (Some e))
         end.

Definition now : M string :=
  external Now (λ w, inl (clock_now E (trace w), db w)).

Definition psutil_cpu_percent : M float :=
  external CpuPercent (λ w, inl (cpu_percent E (trace w), db w)).

Definition psutil_virtual_memory : M float :=
  external VirtualMemory (λ w, inl (virtual_memory_percent E (trace w), db w)).

Definition psutil_disk_usage : M float :=
  external DiskUsage (λ w, inl (disk_usage_percent E (trace w), db w)).

(** [subprocess.run(cmd, timeout=..., check=...)]; returns the exit code. *)
Definition subprocess_run (cmd : list string) (timeout : Z) (check : bool) : M Z :=
  external (SubprocessRun cmd timeout) (λ w,
    match process E (trace w) cmd timeout with
    | Exited rc =>
        if check && negb (bool_decide (rc = 0))
        then inr (CalledProcessError rc)
        else inl (rc, db w)
    | TimedOut => inr TimeoutExpired
    | LaunchFailed => inr FileNotFoundError
    end).

Definition sleep (secs : Z) : M unit :=
  external (Sleep secs) (λ w,
    if bool_decide (secs < 0) then inr ValueError else inl (tt, db w)).

Definition print (l : line) : M unit :=
  external (Print l) (λ w, inl (tt, db w)).

(** [print(f"#{_id:>4} | {ts} | CPU {cpu:5.1f}% ...")] for a fetched row; an
    exception of the f-string is recorded as raised by the call. *)
Definition print_row (r : row) : M unit :=
  external (Print (LRow r)) (λ w,
    match format_row r with
    | Some e => inr e
    | None => inl (tt, db w)
    end).

Definition sqlite3_connect : M connection :=
  external Connect (λ w,
    if storage_fault E (trace w) Connect
    then inr (OperationalError Unwritable)
    else inl (Connection None, db w)).

(** [cur.execute(s)] followed, for a SELECT, by [cur.fetchall()].  An INSERT
    opens a transaction on the connection; CREATE TABLE runs outside one
    and takes effect at once. *)
Definition execute (conn : connection) (s : statement) : M (connection * list row) :=
  external (Execute s) (λ w,
    if storage_fault E (trace w) (Execute s)
    then inr (OperationalError Unwritable)
    else
      let view := default (db w) (pending conn) in
      match s with
      | CreateTable =>
          match pending conn with
          | None => inl ((conn, []), create_table_if_not_exists (db w))
          | Some d =>
              inl ((Connection (Some (create_table_if_not_exists d)), []), db w)
          end
      | Insert e =>
          match view with
          | None => inr (OperationalError NoSuchTable)
          | Some t =>
              match table_insert t e with
              | inl t' => inl ((Connection (Some (Some t')), []), db w)
              | inr err => inr err
              end
          end
      | SelectRecent limit =>
          match view with
          | None => inr (OperationalError NoSuchTable)
          | Some t =>
              if fits_int64 limit
              then inl ((conn, select_recent limit t), db w)
              else inr OverflowError
          end
      | SelectDown =>
          match view with
          | None => inr (OperationalError NoSuchTable)
          | Some t => inl ((conn, select_down t), db w)
          end
      end).

Definition commit (conn : connection) : M connection :=
  external Commit (λ w,
    if storage_fault E (trace w) Commit
    then inr (OperationalError Unwritable)
    else match pending conn with
         | Some d => inl (Connection None, d)
         | None => inl (conn, db w)
         end).

(** Closing drops whatever the connection has not committed. *)
Definition close (conn : connection) : M unit :=
  external Close (λ w, inl (tt, db w)).

Definition init_db : M unit :=
  conn ← sqlite3_connect;
  '(conn, _) ← execute conn CreateTable;
  conn ← commit conn;
  close conn.

(** The command line built by [ping_status]. *)
Definition ping_command (host : string) : list string :=
  let system := lower (platform_system E) in
  let count_flag := if bool_decide (system = "windows") then "-n" else "-c" in
  ["ping"; count_flag; "1"; host].

Definition ping_status (host : string) (timeout_sec : Z) : M string :=
  let cmd := ping_command host in
  try_except
    (subprocess_run cmd timeout_sec true ;; mret "UP")
    is_Exception
    (mret "DOWN").

Definition get_system_info : M entry :=
  ts ← now;
  cpu ← psutil_cpu_percent;
  memory ← psutil_virtual_memory;
  disk ← psutil_disk_usage;
  pstat ← ping_status PING_HOST 3;
  mret (Entry ts cpu memory disk pstat).

Definition insert_log (e : entry) : M unit :=
  conn ← sqlite3_connect;
  '(conn, _) ← execute conn (Insert e);
  conn ← commit conn;
  close conn.

Definition show_last_logs (limit : Z) : M unit :=
  conn ← sqlite3_connect;
  '(conn, fetched) ← execute conn (SelectRecent limit);
  close conn ;;
  print (LLastHeader limit) ;;
  match fetched with
  | [] => print LNoData
  | _ => for_each print_row fetched
  end.

Definition show_failed_pings : M unit :=
  conn ← sqlite3_connect;
  '(conn, fetched) ← execute conn SelectDown;
  close conn ;;
  print LFailedHeader ;;
  match fetched with
  | [] => print LNone
  | _ => for_each print_row fetched
  end.

(** The body of the [for i in range(SAMPLES)] loop of [main]. *)
Definition main_iteration (samples interval i : Z) : M unit :=
  e ← get_system_info;
  insert_log e ;;
  print (LProgress (i + 1) samples e) ;;
  if bool_decide (i < samples - 1) then sleep interval else mret tt.

(** [main()], with the module constants [SAMPLES] and [INTERVAL_SEC] it
    reads taken as parameters. *)
Definition main (samples interval : Z) : M unit :=
  print LInitializing ;;
  init_db ;;
  print (LCollecting samples interval) ;;
  for_range (main_iteration samples interval) 0 (Z.to_nat samples) ;;
  show_last_logs 5.

(** The [if __name__ == "__main__":] block. *)
Definition __main__ (samples interval : Z) : M unit :=
  try_except (main samples interval)
    (λ e, match e with KeyboardInterrupt => true | _ => false end)
    (print LInterrupted).

End Script.

(** ** Vocabulary of the statements *)

(** Rows in strictly descending [id] order. *)
Definition strictly_descending (l : list row) : Prop :=
  StronglySorted (λ r1 r2 : row, r2.1 < r1.1) l.

(** The rows of a database, none while the table is absent. *)
Definition rows_of (d : database) : gmap Z sample :=
  match d with
  | Some t => rows t
  | None => ∅
  end.

(** The REAL columns of every row hold reals, as the schema declares them:
    every row can be formatted. *)
Definition real_columns (t : table) : Prop :=
  ∀ id s, rows t !! id = Some s → format_row (id, s) = None.

(** The readings psutil gives are numbers. *)
Definition numeric_readings (E : environment) : Prop :=
  ∀ h, is_nan (cpu_percent E h) = false ∧
       is_nan (virtual_memory_percent E h) = false ∧
       is_nan (disk_usage_percent E h) = false.

(** The largest id the table has used: its counter or its largest rowid. *)
Definition top_id (t : table) : Z :=
  Z.max (seq t) (foldr Z.max 0 (rowids (rows t))).

(** No interrupt arrives and the database file stays usable. *)
Definition calm (E : environment) : Prop :=
  ∀ h c, sigint E h c = false ∧ storage_fault E h c = false.

(** What a report prints after its header. *)
Definition report_lines (empty : line) (fetched : list row) : list event :=
  match fetched with
  | [] => [Ev (Print empty) None]
  | _ => (λ r, Ev (Print (LRow r)) None) <$> fetched
  end.

(** The trace of a [show_last_logs] call that meets no exception. *)
Definition show_last_logs_events (limit : Z) (fetched : list row) : list event :=
  [Ev Connect None; Ev (Execute (SelectRecent limit)) None; Ev Close None;
   Ev (Print (LLastHeader limit)) None] ++ report_lines LNoData fetched.

Definition show_failed_pings_events (fetched : list row) : list event :=
  [Ev Connect None; Ev (Execute SelectDown) None; Ev Close None;
   Ev (Print LFailedHeader) None] ++ report_lines LNone fetched.

(** The counter of [sqlite_sequence], 0 while the table is absent. *)
Definition seq_of (d : database) : Z :=
  match d with
  | Some t => seq t
  | None => 0
  end.

(** The ids held by [d'] that [d] does not hold. *)
Definition added_ids (d d' : database) : list Z :=
  filter (λ k, rows_of d !! k = None) (rowids (rows_of d')).

(** A history of the store: inserts by [insert_log], and removals of rows.
    The script never removes a row; a removal stands for a
    [DELETE ... WHERE id IN (...)] issued on the file by another client,
    which SQLite performs without touching [sqlite_sequence]. *)
Inductive store_op :=
  | OpInsert (e : entry)
  | OpRemove (ids : list Z).

Definition remove_rows (ids : list Z) (d : database) : database :=
  (λ t, {| rows := foldr delete (rows t) ids; seq := seq t |}) <$> d.

(** Runs a history; returns the ids assigned by its inserts, in order. *)
Fixpoint run_ops (E : environment) (ops : list store_op) (w : world)
    : list Z * world :=
  match ops with
  | [] => ([], w)
  | OpInsert e :: ops' =>
      let w' := (insert_log E e w).2 in
      let '(ids, w'') := run_ops E ops' w' in
      (added_ids (db w) (db w') ++ ids, w'')
  | OpRemove ids :: ops' =>
      run_ops E ops' {| db := remove_rows ids (db w); trace := trace w |}
  end.

(** The trace of the start of [main], up to the loop. *)
Definition init_events (samples interval : Z) : list event :=
  [Ev (Print LInitializing) None; Ev Connect None; Ev (Execute CreateTable) None;
   Ev Commit None; Ev Close None; Ev (Print (LCollecting samples interval)) None].

(** The trace of pass [i] (counted from 0) of the loop of [main] when it
    samples [e], with [probe] the outcome of the ping process, and nothing
    else raises: the sampler, the insert, the progress line, and the wait
    unless the pass is the last. *)
Definition tick_events (E : environment) (samples interval i : Z)
    (e : entry) (probe : option exn) : list event :=
  [Ev Now None; Ev CpuPercent None; Ev VirtualMemory None; Ev DiskUsage None;
   Ev (SubprocessRun (ping_command E PING_HOST) 3) probe;
   Ev Connect None; Ev (Execute (Insert e)) None; Ev Commit None; Ev Close None;
   Ev (Print (LProgress (i + 1) samples e)) None]
  ++ (if bool_decide (i < samples - 1) then [Ev (Sleep interval) None] else []).

Fixpoint loop_events (E : environment) (samples interval i : Z)
    (ticks : list (entry * option exn)) : list event :=
  match ticks with
  | [] => []
  | (e, probe) :: rest =>
      tick_events E samples interval i e probe
      ++ loop_events E samples interval (i + 1) rest
  end.

(** The number of waits ([time.sleep] calls) in a trace. *)
Fixpoint count_sleeps (l : list event) : nat :=
  match l with
  | [] => 0
  | Ev (Sleep _) _ :: l' => S (count_sleeps l')
  | _ :: l' => count_sleeps l'
  end.

(** The status a sample carries matches the outcome of its probe. *)
Definition probe_status (tick : entry * option exn) : Prop :=
  match tick.2 with
  | None => e_pstat tick.1 = "UP"
  | Some x => e_pstat tick.1 = "DOWN" ∧ is_Exception x = true
  end.

(** Inserting the entries one after the other. *)
Fixpoint insert_all (t : table) (es : list entry) : option table :=
  match es with
  | [] => Some t
  | e :: es' =>
      match table_insert t e with
      | inl t' => insert_all t' es'
      | inr _ => None
      end
  end.

(** [kept good d d']: going from [d] to [d'] the table is not dropped,
    every row of [d] is still there under its id with the same content, and
    every other row of [d'] satisfies [good]. *)
Definition kept (good : sample → Prop) (d d' : database) : Prop :=
  (is_Some d → is_Some d') ∧
  rows_of d ⊆ rows_of d' ∧
  ∀ id s, rows_of d' !! id = Some s → rows_of d !! id = None → good s.

(** A stored sample of the script: no NULL, and a status UP or DOWN. *)
Definition sampled (s : sample) : Prop :=
  populated s = true ∧
  (ping_status_col s = SText "UP" ∨ ping_status_col s = SText "DOWN").

Definition ev_call (ev : event) : call :=
  match ev with
  | Ev c _ => c
  end.

(** Events after which the script goes on: a call that returned, a failed
    ping process (handled in [ping_status]) and an interrupt (handled by the
    entry point). *)
Definition absorbed (ev : event) : bool :=
  match ev with
  | Ev _ None => true
  | Ev _ (Some KeyboardInterrupt) => true
  | Ev (SubprocessRun _ _) (Some e) => is_Exception e
  | Ev _ (Some _) => false
  end.

(** Calls on the SQLite file. *)
Definition storage_call (c : call) : bool :=
  match c with
  | Connect | Execute _ | Commit | Close => true
  | _ => false
  end.

(** Calls of the default report: no call of the failed-ping report, and the
    recent-rows query and header only with limit 5. *)
Definition default_report_call (c : call) : bool :=
  match c with
  | Execute SelectDown | Print LFailedHeader | Print LNone => false
  | Execute (SelectRecent limit) | Print (LLastHeader limit) =>
      bool_decide (limit = 5)
  | _ => true
  end.

Definition ok_event (ev : event) : bool :=
  absorbed ev && default_report_call (ev_call ev).

(** Since the trace was [h0], every event was absorbed and belongs to the
    default run. *)
Definition fine (h0 : list event) (w : world) : Prop :=
  ∃ seg, trace w = h0 ++ seg ∧ Forall (λ ev, ok_event ev = true) seg.

(** As [fine], up to a last call, which raised [e]. *)
Definition broke (h0 : list event) (e : exn) (w : world) : Prop :=
  ∃ seg c, trace w = h0 ++ seg ++ [Ev c (Some e)] ∧
           Forall (λ ev, ok_event ev = true) seg ∧
           default_report_call c = true.

(** Since the trace was [h0], the table holds [k] rows plus one row per
    wait. *)
Definition balance (h0 : list event) (k : nat) (w : world) : Prop :=
  ∃ seg, trace w = h0 ++ seg ∧
         size (rows_of (db w)) = (k + count_sleeps seg)%nat.

(** If the exception [e] was raised by a wait, the table holds [r0] rows
    plus one row more than there were waits before. *)
Definition cut_short (h0 : list event) (r0 : nat) (e : exn) (w : world) : Prop :=
  ∀ pre secs, trace w = h0 ++ pre ++ [Ev (Sleep secs) (Some e)] →
              size (rows_of (db w)) = (r0 + S (count_sleeps pre))%nat.

(** The operations of the program. *)
Inductive operation :=
  | CallInitDb
  | CallPingStatus (host : string) (timeout_sec : Z)
  | CallGetSystemInfo
  | CallInsertLog (e : entry)
  | CallShowLastLogs (limit : Z)
  | CallShowFailedPings
  | CallMain (samples interval : Z)
  | CallScript (samples interval : Z).

(** The world an operation leaves, however it ends. *)
Definition run_operation (E : environment) (op : operation) (w : world) : world :=
  match op with
  | CallInitDb => (init_db E w).2
  | CallPingStatus host timeout_sec => (ping_status E host timeout_sec w).2
  | CallGetSystemInfo => (get_system_info E w).2
  | CallInsertLog e => (insert_log E e w).2
  | CallShowLastLogs limit => (show_last_logs E limit w).2
  | CallShowFailedPings => (show_failed_pings E w).2
  | CallMain samples interval => (main E samples interval w).2
  | CallScript samples interval => (__main__ E samples interval w).2
  end.

(** ** Example environments and stores *)

(** Nothing goes wrong and the host answers. *)
Definition quiet_env : environment :=
  {| sigint := λ _ _, false;
     storage_fault := λ _ _, false;
     clock_now := λ _, "2024-05-01 12:00:00";
     cpu_percent := λ _, 12.5%float;
     virtual_memory_percent := λ _, 40%float;
     disk_usage_percent := λ _, 71.5%float;
     platform_system := "Linux";
     process := λ _ _ _, Exited 0 |}.

(** As [quiet_env], on Windows, and the ping times out. *)
Definition unreachable_env : environment :=
  {| sigint := λ _ _, false;
     storage_fault := λ _ _, false;
     clock_now := λ _, "2024-05-01 12:00:00";
     cpu_percent := λ _, 12.5%float;
     virtual_memory_percent := λ _, 40%float;
     disk_usage_percent := λ _, 71.5%float;
     platform_system := "Windows";
     process := λ _ _ _, TimedOut |}.

Definition up_sample : sample :=
  {| timestamp := SText "2024-05-01 12:00:00"; cpu := SReal 12.5%float;
     memory := SReal 40%float; disk := SReal 71.5%float;
     ping_status_col := SText "UP" |}.

Definition down_sample : sample :=
  {| timestamp := SText "2024-05-01 12:00:10"; cpu := SReal 13%float;
     memory := SReal 40%float; disk := SReal 71.5%float;
     ping_status_col := SText "DOWN" |}.

(** A table of three rows, the second one DOWN. *)
Definition three_rows : table :=
  {| rows := <[3 := up_sample]> (<[2 := down_sample]> {[1 := up_sample]}); seq := 3 |}.

Definition fresh_world : world := {| db := None; trace := [] |}.

Definition up_entry : entry :=
  {| e_ts := "2024-05-01 12:00:00"; e_cpu := 12.5%float; e_memory := 40%float;
     e_disk := 71.5%float; e_pstat := "UP" |}.

(** As [quiet_env], but SIGINT arrives during the second wait. *)
Definition interrupting_env : environment :=
  {| sigint := λ h c, match c with
                      | Sleep _ => bool_decide (count_sleeps h = 1%nat)
                      | _ => false
                      end;
     storage_fault := λ _ _, false;
     clock_now := λ _, "2024-05-01 12:00:00";
     cpu_percent := λ _, 12.5%float;
     virtual_memory_percent := λ _, 40%float;
     disk_usage_percent := λ _, 71.5%float;
     platform_system := "Linux";
     process := λ _ _ _, Exited 0 |}.

(** As [quiet_env], but the database file cannot be written when the second
    insert is committed. *)
Definition failing_env : environment :=
  {| sigint := λ _ _, false;
     storage_fault := λ h c, match c with
                             | Commit => bool_decide (count_sleeps h = 1%nat)
                             | _ => false
                             end;
     clock_now := λ _, "2024-05-01 12:00:00";
     cpu_percent := λ _, 12.5%float;
     virtual_memory_percent := λ _, 40%float;
     disk_usage_percent := λ _, 71.5%float;
     platform_system := "Linux";
     process := λ _ _ _, Exited 0 |}.

(** [wp m Q X w]: run from [w], [m] either returns a value and a world
    that satisfy [Q], or raises an exception in a world that satisfy [X]. *)
Definition wp {A} (m : M A) (Q : A → world → Prop) (X : exn → world → Prop)
    (w : world) : Prop :=
  match m w with
  | (inl a, w') => Q a w'
  | (inr e, w') => X e w'
  end.

(** ** Further vocabulary: outcomes, counters and call sets *)

(** The outcome of an operation whose statement is refused with [x]: the
    connection was opened, the statement raised, nothing else happened (the
    connection is not closed) and the database is as it was. *)
Definition refused (w : world) (s : statement) (x : exn) : (unit + exn) * world :=
  (inr x, {| db := db w;
             trace := trace w ++ [Ev Connect None; Ev (Execute s) (Some x)] |}).

(** The calls of an [insert_log] that gets as far as closing the
    connection, [last] being what the close raised. *)
Definition insert_events (e : entry) (last : option exn) : list event :=
  [Ev Connect None; Ev (Execute (Insert e)) None; Ev Commit None; Ev Close last].

(** The AUTOINCREMENT counter is at least every id in use, as in every
    table that only [insert_log] has written to. *)
Definition counter_covers (t : table) : Prop :=
  0 ≤ seq t ∧ ∀ k, is_Some (rows t !! k) → k ≤ seq t.

(** The number of progress lines ("[i/samples] Logged: ...") that were
    printed in a trace. *)
Fixpoint count_progress (l : list event) : nat :=
  match l with
  | [] => 0
  | Ev (Print (LProgress _ _ _)) None :: l' => S (count_progress l')
  | _ :: l' => count_progress l'
  end.

(** Since the trace was [h0] and the table held [r0] rows, the table has
    gained one row per progress line printed and [k] more. *)
Definition tally (h0 : list event) (r0 k : nat) (w : world) : Prop :=
  ∃ seg, trace w = h0 ++ seg ∧
         size (rows_of (db w)) = (r0 + count_progress seg + k)%nat.

(** As [tally], for at most one row more than there are progress lines. *)
Definition tally_within (h0 : list event) (r0 : nat) (w : world) : Prop :=
  ∃ k, (k ≤ 1)%nat ∧ tally h0 r0 k w.

(** The external calls of [main samples interval]: the clock and the three
    psutil readings, one ping command (one packet to [PING_HOST], timeout
    3), the statements CREATE TABLE, INSERT and the recent-rows query with
    limit 5, waits of [interval] seconds (only when more than one sample
    is asked for), and the lines of [main], of the default report and of
    the passes 1 to [samples]. *)
Definition main_call (E : environment) (samples interval : Z) (c : call) : Prop :=
  match c with
  | Now | CpuPercent | VirtualMemory | DiskUsage | Connect | Commit | Close => True
  | SubprocessRun cmd timeout => cmd = ping_command E PING_HOST ∧ timeout = 3
  | Sleep secs => secs = interval ∧ 1 < samples
  | Print l =>
      match l with
      | LInitializing | LNoData | LRow _ => True
      | LCollecting s i => s = samples ∧ i = interval
      | LProgress i s _ => s = samples ∧ 1 ≤ i ≤ samples
      | LLastHeader limit => limit = 5
      | LFailedHeader | LNone | LInterrupted => False
      end
  | Execute s =>
      match s with
      | CreateTable | Insert _ => True
      | SelectRecent limit => limit = 5
      | SelectDown => False
      end
  end.

(** Since the trace was [h0], every call satisfied [P]. *)
Definition only_calls (P : call → Prop) (h0 : list event) (w : world) : Prop :=
  ∃ seg, trace w = h0 ++ seg ∧ Forall (λ ev, P (ev_call ev)) seg.

(** The three REAL columns of the sample hold reals: its line formats. *)
Definition formattable (s : sample) : Prop := ∀ id, format_row (id, s) = None.

(** Every row of the table, if there is one, can be printed. *)
Definition printable (d : database) : Prop := ∀ t, d = Some t → real_columns t.

(** The number of events of a trace whose call satisfies [p]. *)
Fixpoint count_calls (p : call → bool) (l : list event) : nat :=
  match l with
  | [] => 0
  | ev :: l' => ((if p (ev_call ev) then 1 else 0) + count_calls p l')%nat
  end.

Definition is_probe (c : call) : bool :=
  match c with
  | SubprocessRun _ _ => true
  | _ => false
  end.

Definition is_insert (c : call) : bool :=
  match c with
  | Execute (Insert _) => true
  | _ => false
  end.

Definition is_connect (c : call) : bool :=
  match c with
  | Connect => true
  | _ => false
  end.

Definition is_close (c : call) : bool :=
  match c with
  | Close => true
  | _ => false
  end.

(** ** The engine: ordering, limits and filters *)

#[global] Instance by_id_desc_trans : Transitive by_id_desc.
Proof. intros x y z. unfold by_id_desc. lia. Qed.

#[global] Instance by_id_desc_total : Total by_id_desc.
Proof. intros x y. unfold by_id_desc. lia. Qed.

Lemma order_by_id_desc_perm (l : list row) : order_by_id_desc l ≡ₚ l.
Proof. apply merge_sort_Permutation. Qed.

Lemma sorted_nodup_strict (l : list row) :
  StronglySorted by_id_desc l → NoDup l.*1 → strictly_descending l.
Proof.
  unfold strictly_descending.
  induction 1 as [|x l Hl IH Hx]; intros Hnd; simpl in *.
  - constructor.
  - apply NoDup_cons in Hnd as [Hnotin Hnd].
    constructor; [by apply IH|].
    apply Forall_forall. intros y Hy.
    rewrite Forall_forall in Hx. specialize (Hx y Hy). unfold by_id_desc in Hx.
    assert (y.1 ≠ x.1); [|lia].
    intros Heq. apply Hnotin. rewrite <- Heq. by apply list_elem_of_fmap_2.
Qed.

Lemma order_by_id_desc_strict (l : list row) :
  NoDup l.*1 → strictly_descending (order_by_id_desc l).
Proof.
  intros Hnd. apply sorted_nodup_strict.
  - apply StronglySorted_merge_sort; apply _.
  - by rewrite (order_by_id_desc_perm l).
Qed.

Lemma strictly_descending_sublist (l1 l2 : list row) :
  l1 `sublist_of` l2 → strictly_descending l2 → strictly_descending l1.
Proof.
  unfold strictly_descending. intros Hsub Hs. revert l1 Hsub.
  induction Hs as [|x l Hl IH Hx]; intros l1 Hsub.
  - apply sublist_nil_r in Hsub as ->. constructor.
  - apply sublist_cons_r in Hsub as [Hsub|(l1' & -> & Hsub)]; [by apply IH|].
    constructor; [by apply IH|].
    rewrite Forall_forall in Hx. apply Forall_forall. intros y Hy.
    apply Hx. by eapply elem_of_sublist.
Qed.

Lemma sql_limit_sublist {A} (k : Z) (l : list A) : sql_limit k l `sublist_of` l.
Proof. unfold sql_limit. case_bool_decide; [done|apply sublist_take]. Qed.

Lemma sql_limit_length {A} (k : Z) (l : list A) :
  length (sql_limit k l) =
  if bool_decide (k < 0) then length l else (Z.to_nat k `min` length l)%nat.
Proof.
  unfold sql_limit. case_bool_decide; [done|].
  by rewrite length_take.
Qed.

Lemma NoDup_rows (t : table) : NoDup (map_to_list (rows t)).*1.
Proof. apply NoDup_fst_map_to_list. Qed.

Lemma select_recent_descending (k : Z) (t : table) :
  strictly_descending (select_recent k t).
Proof.
  unfold select_recent.
  eapply strictly_descending_sublist; [apply sql_limit_sublist|].
  apply order_by_id_desc_strict, NoDup_rows.
Qed.

Lemma select_recent_length (k : Z) (t : table) :
  length (select_recent k t) =
  if bool_decide (k < 0) then size (rows t)
  else (Z.to_nat k `min` size (rows t))%nat.
Proof.
  unfold select_recent. rewrite sql_limit_length.
  assert (length (order_by_id_desc (map_to_list (rows t))) = size (rows t)) as ->; [|done].
  rewrite <- length_map_to_list. apply Permutation_length, order_by_id_desc_perm.
Qed.

Lemma select_recent_elem (k : Z) (t : table) (r : row) :
  r ∈ select_recent k t → rows t !! r.1 = Some r.2.
Proof.
  intros Hin. unfold select_recent in Hin.
  eapply elem_of_sublist in Hin; [|apply sql_limit_sublist].
  rewrite (order_by_id_desc_perm _) in Hin.
  destruct r. by apply elem_of_map_to_list in Hin.
Qed.

(** ** Reasoning rules for the monad *)

Arguments wp {A} m Q X w : simpl never.
Arguments record w c o : simpl never.
Arguments format_row r : simpl never.

Section Rules.

Context (E : environment).

Lemma wp_run {A} (m : M A) Q X w r w' :
  wp m Q X w → m w = (r, w') →
  match r with inl a => Q a w' | inr e => X e w' end.
Proof. unfold wp. intros H Hm. rewrite Hm in H. by destruct r. Qed.

Lemma wp_always {A} (m : M A) (P : world → Prop) w :
  wp m (λ _, P) (λ _, P) w → P (m w).2.
Proof. unfold wp. by destruct (m w) as [[a|e] w']. Qed.

Lemma wp_ret {A} (a : A) (Q : A → world → Prop) X w :
  Q a w → wp (mret a) Q X w.
Proof. done. Qed.

Lemma wp_bind {A B} (m : M A) (f : A → M B) Q X w :
  wp m (λ a w', wp (f a) Q X w') X w → wp (m ≫= f) Q X w.
Proof.
  unfold wp, mbind, M_bind. by destruct (m w) as [[a|e] w'].
Qed.

Lemma wp_mono {A} (m : M A) (Q Q' : A → world → Prop) (X X' : exn → world → Prop) w :
  wp m Q X w → (∀ a w', Q a w' → Q' a w') → (∀ e w', X e w' → X' e w') →
  wp m Q' X' w.
Proof.
  unfold wp. destruct (m w) as [[a|e] w']; auto.
Qed.

Lemma wp_try_except {A} (body handler : M A) (catches : exn → bool) Q X w :
  wp body Q (λ e w', if catches e then wp handler Q X w' else X e w') w →
  wp (try_except body catches handler) Q X w.
Proof.
  unfold wp, try_except. destruct (body w) as [[a|e] w']; [done|].
  by destruct (catches e).
Qed.

Lemma wp_external {A} (c : call) (answer : world → (A * database) + exn) Q X w :
  (if sigint E (trace w) c then X KeyboardInterrupt (record w c (Some KeyboardInterrupt))
   else match answer w with
        | inl (a, d) => Q a {| db := d; trace := trace w ++ [Ev c None] |}
        | inr e => X e (record w c (Some e))
        end) →
  wp (external E c answer) Q X w.
Proof.
  unfold wp, external. destruct (sigint E (trace w) c); [done|].
  by destruct (answer w) as [[a d]|e].
Qed.

Lemma wp_for_range (I : Z → world → Prop) (body : Z → M unit) X n start w :
  I start w →
  (∀ i w', start ≤ i < start + Z.of_nat n → I i w' →
           wp (body i) (λ _, I (i + 1)) X w') →
  wp (for_range body start n) (λ _, I (start + Z.of_nat n)) X w.
Proof.
  revert start w. induction n as [|n IH]; intros start w Hw Hbody.
  - simpl. apply wp_ret. by replace (start + Z.of_nat 0) with start by lia.
  - simpl. apply wp_bind. eapply wp_mono; [apply Hbody; [lia|done]| |done].
    intros [] w' Hw'. simpl.
    replace (start + Z.of_nat (S n)) with ((start + 1) + Z.of_nat n) by lia.
    apply IH; [done|]. intros i w'' Hi. apply Hbody. lia.
Qed.

Lemma wp_for_each {B} (I : list B → world → Prop) (body : B → M unit) X l w :
  I [] w →
  (∀ done x w', I done w' → wp (body x) (λ _, I (done ++ [x])) X w') →
  wp (for_each body l) (λ _, I l) X w.
Proof.
  intros Hw Hbody.
  cut (∀ done w, I done w → wp (for_each body l) (λ _, I (done ++ l)) X w).
  { intros H. by apply (H []). }
  clear w Hw. induction l as [|x l IH]; intros done w Hw; simpl.
  - apply wp_ret. by rewrite app_nil_r.
  - apply wp_bind. eapply wp_mono; [by apply Hbody| |done].
    intros [] w' Hw'. simpl.
    replace (done ++ x :: l) with ((done ++ [x]) ++ l) by by rewrite <- app_assoc.
    by apply IH.
Qed.

End Rules.

(** Unfolds the wrappers of the external calls. *)
Ltac unfold_calls :=
  unfold now, psutil_cpu_percent, psutil_virtual_memory, psutil_disk_usage,
    subprocess_run, sleep, print, print_row, sqlite3_connect, execute, commit,
    close.

(** Case analysis on the innermost condition that [x] examines. *)
Ltac split_on x :=
  lazymatch x with
  | if ?b then _ else _ => split_on b
  | match ?y with _ => _ end => split_on y
  | _ => destruct x eqn:?
  end.

(** Case analysis on the conditions at the head of the goal. *)
Ltac head_cases :=
  repeat lazymatch goal with
    | |- if ?b then _ else _ => split_on b; simpl
    | |- match ?x with _ => _ end => split_on x; simpl
    end.

(** One step of symbolic execution; an external call is split into its
    outcomes. *)
Ltac wp_step :=
  lazymatch goal with
  | |- wp (mret _) _ _ _ => apply wp_ret
  | |- wp (mbind _ _) _ _ _ => apply wp_bind
  | |- wp (try_except _ _ _) _ _ _ => apply wp_try_except
  | |- wp (if ?b then _ else _) _ _ _ =>
      lazymatch type of b with bool => destruct b eqn:? end
  | |- wp (external _ _ _) _ _ _ => apply wp_external; simpl; head_cases
  end.

Ltac wp_run_all := unfold_calls; repeat wp_step.


(** ** The reachability probe *)


(** ** Schema initialisation *)

Lemma init_db_calm (E : environment) (w : world) :
  calm E →
  init_db E w =
  (inl tt,
   {| db := create_table_if_not_exists (db w);
      trace := trace w ++ [Ev Connect None; Ev (Execute CreateTable) None;
                           Ev Commit None; Ev Close None] |}).
Proof.
  intros Hcalm.
  unfold init_db, mbind, M_bind, sqlite3_connect, execute, commit, close, external.
  simpl.
  repeat (rewrite ?(proj1 (Hcalm _ _)), ?(proj2 (Hcalm _ _)); simpl).
  by rewrite <- !app_assoc.
Qed.

Lemma init_db_db (E : environment) (w : world) :
  db (init_db E w).2 = db w ∨
  db (init_db E w).2 = create_table_if_not_exists (db w).
Proof.
  unfold init_db, mbind, M_bind, sqlite3_connect, execute, commit, close, external,
    record.
  repeat (case_match; simplify_eq/=; auto).
Qed.

Lemma init_db_returns (E : environment) (w w' : world) :
  init_db E w = (inl tt, w') → db w' = create_table_if_not_exists (db w).
Proof.
  unfold init_db, mbind, M_bind, sqlite3_connect, execute, commit, close, external,
    record.
  intros H. repeat (case_match; simplify_eq/=; auto).
Qed.

(** C7: [init_db] is idempotent.  When a first call returns, the database
    holds the table: the one it already held, rows included, or else a new
    empty one; a second call in succession leaves that database as it is,
    whatever the second call meets.  With no interrupt and a usable file
    both calls return normally. *)
Theorem init_db_idempotent (E : environment) (w : world) :
  let r1 := (init_db E w).1 in
  let w1 := (init_db E w).2 in
  let r2 := (init_db E w1).1 in
  let w2 := (init_db E w1).2 in
  (r1 = inl tt →
     db w1 = Some (default empty_table (db w)) ∧
     rows_of (db w1) = rows_of (db w) ∧
     db w2 = db w1) ∧
  (calm E → r1 = inl tt ∧ r2 = inl tt).
Proof.
  intros r1 w1 r2 w2. split.
  - intros Hr1.
    assert (db w1 = create_table_if_not_exists (db w)) as Hdb.
    { apply (init_db_returns E). subst r1 w1.
      destruct (init_db E w) as [r w']. simpl in *. by subst r. }
    split; [|split].
    + rewrite Hdb. by destruct (db w).
    + rewrite Hdb. by destruct (db w).
    + subst w2. destruct (init_db_db E w1) as [->| ->]; [done|].
      rewrite Hdb. by destruct (db w).
  - intros Hcalm. subst r1 r2 w1 w2. by rewrite !init_db_calm.
Qed.

(** ** The reports *)

Lemma for_each_print_calm (E : environment) (l : list row) (w : world) :
  calm E → Forall (λ r, format_row r = None) l →
  for_each (print_row E) l w =
  (inl tt, {| db := db w;
              trace := trace w ++ ((λ r, Ev (Print (LRow r)) None) <$> l) |}).
Proof.
  intros Hcalm Hl. revert w. induction Hl as [|r l Hr Hl IH]; intros w; simpl.
  - rewrite app_nil_r. by destruct w.
  - unfold mbind, M_bind, print_row, external at 1.
    rewrite (proj1 (Hcalm _ _)), Hr. simpl. rewrite IH. simpl.
    by rewrite <- app_assoc.
Qed.

Lemma report_calm (E : environment) (empty : line) (l : list row) (w : world) :
  calm E → Forall (λ r, format_row r = None) l →
  match l with
  | [] => print E empty
  | _ => for_each (print_row E) l
  end w = (inl tt, {| db := db w; trace := trace w ++ report_lines empty l |}).
Proof.
  intros Hcalm Hl. destruct l as [|r l].
  - unfold print, external. by rewrite (proj1 (Hcalm _ _)).
  - by rewrite for_each_print_calm.
Qed.

Lemma select_recent_formats (k : Z) (t : table) :
  real_columns t → Forall (λ r, format_row r = None) (select_recent k t).
Proof.
  intros Ht. apply Forall_forall. intros [id s] Hr.
  apply select_recent_elem in Hr. by apply (Ht id s).
Qed.

Lemma show_last_logs_calm (E : environment) (w : world) (t : table) (k : Z) :
  calm E → db w = Some t → real_columns t → fits_int64 k = true →
  show_last_logs E k w =
  (inl tt, {| db := db w;
              trace := trace w ++ show_last_logs_events k (select_recent k t) |}).
Proof.
  intros Hcalm Hdb Ht Hk.
  unfold show_last_logs, mbind, M_bind, sqlite3_connect, execute, close.
  unfold external at 1. rewrite !(proj1 (Hcalm _ _)), !(proj2 (Hcalm _ _)). simpl.
  unfold external at 1. rewrite !(proj1 (Hcalm _ _)), !(proj2 (Hcalm _ _)). simpl.
  rewrite Hdb, Hk. simpl.
  unfold external at 1. rewrite !(proj1 (Hcalm _ _)). simpl.
  unfold print at 1, external at 1. rewrite !(proj1 (Hcalm _ _)). simpl.
  rewrite report_calm by (done || by apply select_recent_formats). simpl.
  unfold show_last_logs_events. by rewrite <- !app_assoc.
Qed.

(** C1, amended: in a calm environment, for every table whose REAL columns
    hold reals and every limit [k] that fits a 64-bit integer,
    [show_last_logs k] returns normally, leaves
    the database as it was, and fetches and prints rows in strictly
    descending [id] order; for [k >= 0] they are [min k total] many, and for
    [k < 0] they are all the rows of the table (a negative LIMIT is no
    limit).  For [k = 0] or an empty table the result is empty and the
    placeholder line is printed. *)
Theorem show_last_logs_recent_rows
    (E : environment) (w : world) (t : table) (k : Z) :
  calm E → db w = Some t → real_columns t → fits_int64 k = true →
  let fetched := select_recent k t in
  show_last_logs E k w =
    (inl tt, {| db := db w;
                trace := trace w ++ show_last_logs_events k fetched |}) ∧
  strictly_descending fetched ∧
  (0 ≤ k → Z.of_nat (length fetched) = Z.min k (Z.of_nat (size (rows t)))) ∧
  (k < 0 → length fetched = size (rows t)) ∧
  (k = 0 ∨ rows t = ∅ →
     fetched = [] ∧ report_lines LNoData fetched = [Ev (Print LNoData) None]).
Proof.
  intros Hcalm Hdb Ht Hk fetched. subst fetched.
  split; [by apply show_last_logs_calm|].
  split; [apply select_recent_descending|].
  pose proof (select_recent_length k t) as Hlen.
  split; [|split].
  - intros Hk0. rewrite Hlen. rewrite bool_decide_eq_false_2 by lia. lia.
  - intros Hk0. rewrite Hlen. by rewrite bool_decide_eq_true_2 by lia.
  - intros Hempty.
    assert (select_recent k t = []) as ->; [|done].
    apply length_zero_iff_nil. rewrite Hlen.
    destruct Hempty as [-> | ->].
    + by rewrite bool_decide_eq_false_2 by lia.
    + rewrite map_size_empty. case_bool_decide; lia.
Qed.

(** C1 as stated fails: with limit [-1] on a table of three rows,
    [show_last_logs] fetches and prints all three rows, not an empty
    result, and three is not [min (-1) 3].  (And a limit beyond 64 bits is
    an error: binding it raises [OverflowError].) *)
Lemma show_last_logs_negative_limit_counterexample :
  let w := {| db := Some three_rows; trace := [] |} in
  -1 ≤ 0 ∧
  show_last_logs quiet_env (-1) w =
    (inl tt,
     {| db := Some three_rows;
        trace := [Ev Connect None; Ev (Execute (SelectRecent (-1))) None;
                  Ev Close None; Ev (Print (LLastHeader (-1))) None;
                  Ev (Print (LRow (3, up_sample))) None;
                  Ev (Print (LRow (2, down_sample))) None;
                  Ev (Print (LRow (1, up_sample))) None] |}) ∧
  select_recent (-1) three_rows ≠ [] ∧
  Z.of_nat (length (select_recent (-1) three_rows))
    ≠ Z.min (-1) (Z.of_nat (size (rows three_rows))) ∧
  (show_last_logs quiet_env (INT64_MAX + 1) w).1 = inr OverflowError.
Proof. vm_compute. repeat split; congruence. Qed.

Lemma three_rows_real : real_columns three_rows.
Proof.
  intros id s Hs. unfold three_rows in Hs. simpl in Hs.
  apply lookup_insert_Some in Hs as [[_ <-]|[_ Hs]]; [done|].
  apply lookup_insert_Some in Hs as [[_ <-]|[_ Hs]]; [done|].
  by apply lookup_singleton_Some in Hs as [_ <-].
Qed.

Lemma show_last_logs_recent_rows_witness :
  let w := {| db := Some three_rows; trace := [] |} in
  calm quiet_env ∧ db w = Some three_rows ∧ real_columns three_rows ∧
  fits_int64 2 = true ∧
  show_last_logs quiet_env 2 w =
    (inl tt, {| db := db w;
                trace := trace w
                         ++ show_last_logs_events 2 (select_recent 2 three_rows) |}) ∧
  strictly_descending (select_recent 2 three_rows) ∧
  Z.of_nat (length (select_recent 2 three_rows)) = 2.
Proof.
  intros w.
  assert (calm quiet_env) as Hcalm by (by intros h c).
  split; [exact Hcalm|]. split; [reflexivity|].
  split; [exact three_rows_real|]. split; [reflexivity|].
  destruct (show_last_logs_recent_rows quiet_env w three_rows 2 Hcalm eq_refl
              three_rows_real eq_refl)
    as (Hrun & Hdesc & Hlen & _).
  split; [exact Hrun|]. split; [exact Hdesc|].
  rewrite Hlen by lia. reflexivity.
Defined.

Lemma filter_down_strict (l : list row) :
  strictly_descending l → strictly_descending (filter (λ r, is_down r = true) l).
Proof. apply strictly_descending_sublist, sublist_filter. Qed.

#[local] Instance strict_desc_antisymm :
  AntiSymm (=) (λ r1 r2 : row, r2.1 < r1.1).
Proof. intros x y ??. lia. Qed.

Lemma filter_rows_nodup (P : row → Prop) `{!∀ r, Decision (P r)} (l : list row) :
  NoDup l.*1 → NoDup (filter P l).*1.
Proof.
  induction l as [|r l IH]; simpl; [done|].
  intros [Hnotin Hnd]%NoDup_cons. rewrite filter_cons.
  destruct (decide (P r)); [|by apply IH].
  simpl. apply NoDup_cons. split; [|by apply IH].
  intros Hin. apply Hnotin.
  apply list_elem_of_fmap in Hin as (y & -> & Hy).
  apply list_elem_of_fmap_2. by apply list_elem_of_filter in Hy as [_ Hy].
Qed.

Lemma select_down_filter (t : table) :
  select_down t = filter (λ r, is_down r = true) (select_recent (-1) t).
Proof.
  unfold select_down, select_recent, sql_limit. simpl.
  apply (StronglySorted_unique (λ r1 r2 : row, r2.1 < r1.1)).
  - apply order_by_id_desc_strict.
    apply filter_rows_nodup, NoDup_rows.
  - apply filter_down_strict, order_by_id_desc_strict, NoDup_rows.
  - rewrite (order_by_id_desc_perm _).
    by rewrite (order_by_id_desc_perm (map_to_list (rows t))).
Qed.

Lemma select_down_elem (t : table) (r : row) :
  r ∈ select_down t ↔
  rows t !! r.1 = Some r.2 ∧ ping_status_col r.2 = SText "DOWN".
Proof.
  unfold select_down. rewrite (order_by_id_desc_perm _).
  rewrite list_elem_of_filter. destruct r as [id s]. simpl.
  unfold is_down. simpl.
  split.
  - intros [H1 H2%elem_of_map_to_list]. split; [done|].
    destruct (ping_status_col s) as [| |p]; try done.
    by apply bool_decide_eq_true_1 in H1 as ->.
  - intros [H1 H2]. split; [by rewrite H2|by apply elem_of_map_to_list].
Qed.

Lemma select_down_formats (t : table) :
  real_columns t → Forall (λ r, format_row r = None) (select_down t).
Proof.
  intros Ht. apply Forall_forall. intros [id s] Hr.
  apply select_down_elem in Hr as [Hr _]. by apply (Ht id s).
Qed.

Lemma show_failed_pings_calm (E : environment) (w : world) (t : table) :
  calm E → db w = Some t → real_columns t →
  show_failed_pings E w =
  (inl tt, {| db := db w;
              trace := trace w ++ show_failed_pings_events (select_down t) |}).
Proof.
  intros Hcalm Hdb Ht.
  unfold show_failed_pings, mbind, M_bind, sqlite3_connect, execute, close.
  unfold external at 1. rewrite !(proj1 (Hcalm _ _)), !(proj2 (Hcalm _ _)). simpl.
  unfold external at 1. rewrite !(proj1 (Hcalm _ _)), !(proj2 (Hcalm _ _)). simpl.
  rewrite Hdb. simpl.
  unfold external at 1. rewrite !(proj1 (Hcalm _ _)). simpl.
  unfold print at 1, external at 1. rewrite !(proj1 (Hcalm _ _)). simpl.
  rewrite report_calm by (done || by apply select_down_formats). simpl.
  unfold show_failed_pings_events. by rewrite <- !app_assoc.
Qed.

(** C8: in a calm environment, for every table whose REAL columns hold
    reals, [show_failed_pings] returns normally and fetches and prints exactly the rows whose [ping_status] is
    the text DOWN, in strictly descending [id] order; the result is the
    unbounded recent-rows result (negative limit) with the other rows
    filtered out, so each of its rows is one of the unbounded result. *)
Theorem show_failed_pings_down_rows (E : environment) (w : world) (t : table) :
  calm E → db w = Some t → real_columns t →
  let fetched := select_down t in
  show_failed_pings E w =
    (inl tt, {| db := db w;
                trace := trace w ++ show_failed_pings_events fetched |}) ∧
  (∀ r, r ∈ fetched ↔
        rows t !! r.1 = Some r.2 ∧ ping_status_col r.2 = SText "DOWN") ∧
  strictly_descending fetched ∧
  fetched = filter (λ r, is_down r = true) (select_recent (-1) t) ∧
  (∀ r, r ∈ fetched → r ∈ select_recent (-1) t).
Proof.
  intros Hcalm Hdb Ht fetched. subst fetched.
  split; [by apply show_failed_pings_calm|].
  split; [apply select_down_elem|].
  split.
  { rewrite select_down_filter. apply filter_down_strict, select_recent_descending. }
  split; [apply select_down_filter|].
  intros r. rewrite select_down_filter. by intros [_ ?]%list_elem_of_filter.
Qed.

Lemma show_failed_pings_down_rows_witness :
  let w := {| db := Some three_rows; trace := [] |} in
  calm quiet_env ∧ db w = Some three_rows ∧ real_columns three_rows ∧
  show_failed_pings quiet_env w =
    (inl tt,
     {| db := Some three_rows;
        trace := [Ev Connect None; Ev (Execute SelectDown) None; Ev Close None;
                  Ev (Print LFailedHeader) None;
                  Ev (Print (LRow (2, down_sample))) None] |}).
Proof.
  intros w.
  assert (calm quiet_env) as Hcalm by (by intros h c).
  split; [exact Hcalm|]. split; [reflexivity|]. split; [exact three_rows_real|].
  destruct (show_failed_pings_down_rows quiet_env w three_rows Hcalm eq_refl
              three_rows_real)
    as (Hrun & _).
  rewrite Hrun. vm_compute. reflexivity.
Defined.

(** ** Row ids *)

Lemma foldr_max_ge (k0 : Z) (l : list Z) :
  k0 ≤ foldr Z.max k0 l ∧ ∀ k, k ∈ l → k ≤ foldr Z.max k0 l.
Proof.
  induction l as [|x l [IH0 IH]]; simpl.
  - split; [lia|]. intros k Hk. by apply elem_of_nil in Hk.
  - split; [lia|]. intros k [->|Hk]%elem_of_cons; [lia|].
    specialize (IH k Hk). lia.
Qed.

Lemma after_last_rowid_fresh (m : gmap Z sample) (v : Z) :
  after_last_rowid m = Some v → ∀ k, is_Some (m !! k) → k < v.
Proof.
  unfold after_last_rowid. intros Hv k [s Hs].
  assert (k ∈ rowids m) as Hk.
  { unfold rowids. apply list_elem_of_fmap. exists (k, s). split; [done|].
    by apply elem_of_map_to_list. }
  destruct (rowids m) as [|k0 ks]; [by apply elem_of_nil in Hk|].
  case_bool_decide; [done|]. injection Hv as <-.
  destruct (foldr_max_ge k0 ks) as [Hk0 Hks].
  apply elem_of_cons in Hk as [->|Hk]; [lia|]. specialize (Hks k Hk). lia.
Qed.

Lemma new_rowid_fresh (t : table) (id : Z) :
  new_rowid t = inl id →
  seq t < id ∧ ∀ k, is_Some (rows t !! k) → k < id.
Proof.
  unfold new_rowid. intros Hnew.
  destruct (after_last_rowid (rows t)) as [v|] eqn:Hv; [|done].
  case_bool_decide; [done|]. injection Hnew as <-.
  split; [lia|]. intros k Hk.
  pose proof (after_last_rowid_fresh _ _ Hv k Hk). lia.
Qed.

Lemma table_insert_spec (t t' : table) (e : entry) :
  table_insert t e = inl t' →
  ∃ id, rows t' = <[id := bind_entry e]> (rows t) ∧ seq t' = id ∧
        seq t < id ∧ rows t !! id = None ∧
        (∀ k, is_Some (rows t !! k) → k < id) ∧
        populated (bind_entry e) = true.
Proof.
  unfold table_insert. intros Hins.
  destruct (new_rowid t) as [id|] eqn:Hnew; [|done].
  destruct (populated (bind_entry e)) eqn:Hpop; [|done].
  injection Hins as <-. simpl.
  apply new_rowid_fresh in Hnew as (Hseq & Hkeys).
  exists id. repeat split; try done.
  destruct (rows t !! id) eqn:Hid; [|done].
  assert (id < id); [|lia]. apply Hkeys. by rewrite Hid.
Qed.

Lemma insert_log_db (E : environment) (e : entry) (w : world) :
  let r := (insert_log E e w).1 in
  let w' := (insert_log E e w).2 in
  (db w' = db w ∧ r ≠ inl tt) ∨
  (∃ t t', db w = Some t ∧ table_insert t e = inl t' ∧ db w' = Some t').
Proof.
  unfold insert_log, mbind, M_bind, sqlite3_connect, execute, commit, close,
    external, record.
  simpl.
  repeat (case_match; simplify_eq/=); first [by left | right; eauto 10].
Qed.

Lemma filter_none {A} (P : A → Prop) `{!∀ x, Decision (P x)} (l : list A) :
  Forall (λ x, ¬ P x) l → filter P l = [].
Proof.
  induction 1 as [|x l Hx Hl IH]; [done|]. by rewrite filter_cons_False.
Qed.

Lemma added_ids_same (d : database) : added_ids d d = [].
Proof.
  unfold added_ids, rowids. apply filter_none, Forall_forall.
  intros k (ks & -> & Hks)%list_elem_of_fmap. destruct ks as [k s].
  apply elem_of_map_to_list in Hks. simpl. by rewrite Hks.
Qed.

Lemma added_ids_insert (t t' : table) (id : Z) (s : sample) :
  rows t' = <[id := s]> (rows t) → rows t !! id = None →
  added_ids (Some t) (Some t') = [id].
Proof.
  intros Hrows Hid. unfold added_ids, rowids. simpl. rewrite Hrows.
  apply Permutation_singleton_r.
  rewrite map_to_list_insert by done. simpl.
  rewrite filter_cons_True by done.
  rewrite filter_none; [done|].
  apply Forall_forall.
  intros k (ks & -> & Hks)%list_elem_of_fmap. destruct ks as [k s'].
  apply elem_of_map_to_list in Hks. simpl. by rewrite Hks.
Qed.

Lemma insert_log_assigns (E : environment) (e : entry) (w : world) :
  let w' := (insert_log E e w).2 in
  (added_ids (db w) (db w') = [] ∧ seq_of (db w') = seq_of (db w)) ∨
  (∃ id, added_ids (db w) (db w') = [id] ∧ seq_of (db w) < id ∧
         seq_of (db w') = id ∧ rows_of (db w) !! id = None ∧
         rows_of (db w') = <[id := bind_entry e]> (rows_of (db w))).
Proof.
  intros w'. subst w'.
  destruct (insert_log_db E e w) as [[-> _]|(t & t' & Ht & Hins & ->)].
  - left. by rewrite added_ids_same.
  - right. rewrite Ht.
    apply table_insert_spec in Hins as (id & Hrows & Hseq & Hlt & Hnone & _ & _).
    exists id. split; [by eapply added_ids_insert|]. done.
Qed.

Lemma run_ops_ids (E : environment) (ops : list store_op) (w : world) :
  StronglySorted Z.lt (run_ops E ops w).1 ∧
  Forall (λ id, seq_of (db w) < id) (run_ops E ops w).1.
Proof.
  revert w. induction ops as [|[e|victims] ops IH]; intros w; simpl.
  - split; constructor.
  - destruct (IH (insert_log E e w).2) as [Hsorted Hall].
    destruct (run_ops E ops (insert_log E e w).2) as [ids w''] eqn:Hrun.
    simpl in *.
    destruct (insert_log_assigns E e w) as [[-> Hseq]|(id & -> & Hlt & Hseq & _)];
      simpl.
    + split; [done|]. by rewrite <- Hseq.
    + rewrite Hseq in Hall. split.
      * by constructor.
      * constructor; [done|]. eapply Forall_impl; [done|]. simpl. lia.
  - specialize (IH {| db := remove_rows victims (db w); trace := trace w |}).
    simpl in IH. by destruct (db w).
Qed.

(** C4: along every history of inserts and removals, the ids assigned by the
    inserts are strictly increasing in insertion order, hence pairwise
    distinct, and all beyond the counter the store started from: an id is
    never assigned twice, even when its row has been removed in between.
    An insert that returns assigns exactly one id, not held by any row
    before, and stores the entry under it. *)
Theorem autoincrement_ids_strictly_increase
    (E : environment) (ops : list store_op) (w : world) :
  let ids := (run_ops E ops w).1 in
  StronglySorted Z.lt ids ∧
  NoDup ids ∧
  Forall (λ id, seq_of (db w) < id) ids ∧
  (∀ e w', insert_log E e w = (inl tt, w') →
     ∃ id, added_ids (db w) (db w') = [id] ∧
           rows_of (db w) !! id = None ∧
           (∀ k, is_Some (rows_of (db w) !! k) → k < id) ∧
           rows_of (db w') = <[id := bind_entry e]> (rows_of (db w))).
Proof.
  intros ids. subst ids.
  destruct (run_ops_ids E ops w) as [Hsorted Hall].
  split; [done|]. split; [|split; [done|]].
  - clear Hall. induction Hsorted as [|x l Hl IH Hx]; constructor; [|done].
    intros Hin. rewrite Forall_forall in Hx. specialize (Hx x Hin). lia.
  - intros e w' Hrun.
    pose proof (insert_log_db E e w) as Hdb. simpl in Hdb. rewrite Hrun in Hdb.
    simpl in Hdb. destruct Hdb as [[_ ?]|(t & t' & Ht & Hins & Ht')]; [done|].
    apply table_insert_spec in Hins as (id & Hrows & Hseq & Hlt & Hnone & Hkeys & _).
    exists id. rewrite Ht, Ht'. simpl.
    split; [by eapply added_ids_insert|]. done.
Qed.

(** ** Stored rows are kept and populated *)

Lemma kept_refl (good : sample → Prop) (d : database) : kept good d d.
Proof.
  split; [done|]. split; [done|]. intros id s Hs Hnone. by rewrite Hs in Hnone.
Qed.

Lemma kept_trans (good : sample → Prop) (d1 d2 d3 : database) :
  kept good d1 d2 → kept good d2 d3 → kept good d1 d3.
Proof.
  intros (Hsome12 & Hsub12 & Hnew12) (Hsome23 & Hsub23 & Hnew23).
  split; [auto|]. split; [by etrans|].
  intros id s Hs Hnone.
  destruct (rows_of d2 !! id) as [s2|] eqn:H2.
  - assert (rows_of d3 !! id = Some s2) as Hs3.
    { by eapply lookup_weaken. }
    rewrite Hs in Hs3. injection Hs3 as ->. by eapply Hnew12.
  - by eapply Hnew23.
Qed.

Lemma kept_weaken (good good' : sample → Prop) (d d' : database) :
  (∀ s, good s → good' s) → kept good d d' → kept good' d d'.
Proof.
  intros Himpl (Hsome & Hsub & Hnew). split; [done|]. split; [done|].
  intros id s Hs Hnone. eapply Himpl, Hnew; done.
Qed.

Lemma kept_create (good : sample → Prop) (d : database) :
  kept good d (create_table_if_not_exists d).
Proof.
  destruct d as [t|]; [apply kept_refl|].
  split; [done|]. split; [done|]. intros id s Hs. by simpl in Hs.
Qed.

Lemma kept_insert (good : sample → Prop) (t t' : table) (e : entry) :
  table_insert t e = inl t' →
  (populated (bind_entry e) = true → good (bind_entry e)) →
  kept good (Some t) (Some t').
Proof.
  intros (id & Hrows & _ & _ & Hnone & _ & Hpop)%table_insert_spec Hgood.
  split; [done|]. simpl. rewrite Hrows. split; [by apply insert_subseteq|].
  intros k s Hs Hk.
  destruct (decide (k = id)) as [->|Hne].
  - rewrite lookup_insert_eq in Hs. injection Hs as <-. auto.
  - rewrite lookup_insert_ne in Hs by done. by rewrite Hs in Hk.
Qed.

(** Closes [kept good d0 (db w')] for the world [w'] an execution path
    leaves, from the same fact [Hw] about the world it started in. *)
Ltac kept_solve Hw :=
  unfold record; simpl;
  repeat match goal with
    | H : db _ = _ |- _ => rewrite H in Hw; clear H
    end;
  first
    [ exact Hw
    | eapply kept_trans; [exact Hw|];
      first [ apply kept_create | eapply kept_insert; eassumption ] ].

Section Kept.

Context (E : environment) (good : sample → Prop) (d0 : database).

(** The database is still an extension of [d0]. *)
Let still (w : world) : Prop := kept good d0 (db w).

Lemma get_system_info_kept (w : world) :
  still w →
  wp (get_system_info E)
     (λ e w', still w' ∧ (e_pstat e = "UP" ∨ e_pstat e = "DOWN"))
     (λ _ w', still w') w.
Proof.
  intros Hw. unfold still in *. unfold get_system_info, ping_status.
  wp_run_all; try (split; [|by auto]); kept_solve Hw.
Qed.

Lemma ping_status_kept (host : string) (timeout_sec : Z) (w : world) :
  still w →
  wp (ping_status E host timeout_sec) (λ _ w', still w') (λ _ w', still w') w.
Proof.
  intros Hw. unfold still in *. unfold ping_status.
  wp_run_all; kept_solve Hw.
Qed.

Lemma init_db_kept (w : world) :
  still w → wp (init_db E) (λ _ w', still w') (λ _ w', still w') w.
Proof.
  intros Hw. unfold still in *. unfold init_db. wp_run_all; kept_solve Hw.
Qed.

Lemma insert_log_kept (e : entry) (w : world) :
  (populated (bind_entry e) = true → good (bind_entry e)) →
  still w → wp (insert_log E e) (λ _ w', still w') (λ _ w', still w') w.
Proof.
  intros Hgood Hw. unfold still in *. unfold insert_log.
  wp_run_all; kept_solve Hw.
Qed.

Lemma report_kept (empty : line) (fetched : list row) (w : world) :
  still w →
  wp (match fetched with
      | [] => print E empty
      | _ => for_each (print_row E) fetched
      end) (λ _ w', still w') (λ _ w', still w') w.
Proof.
  intros Hw. unfold still in *. destruct fetched as [|r l].
  - wp_run_all; kept_solve Hw.
  - apply (wp_for_each (λ _ w', kept good d0 (db w'))); [done|].
    intros _ x w' Hw'. wp_run_all; kept_solve Hw'.
Qed.

Lemma show_last_logs_kept (limit : Z) (w : world) :
  still w → wp (show_last_logs E limit) (λ _ w', still w') (λ _ w', still w') w.
Proof.
  intros Hw. unfold still in *. unfold show_last_logs.
  wp_run_all; try (apply report_kept; unfold still); kept_solve Hw.
Qed.

Lemma show_failed_pings_kept (w : world) :
  still w → wp (show_failed_pings E) (λ _ w', still w') (λ _ w', still w') w.
Proof.
  intros Hw. unfold still in *. unfold show_failed_pings.
  wp_run_all; try (apply report_kept; unfold still); kept_solve Hw.
Qed.

Lemma main_iteration_kept (samples interval i : Z) (w : world) :
  (∀ s, sampled s → good s) →
  still w →
  wp (main_iteration E samples interval i) (λ _ w', still w') (λ _ w', still w') w.
Proof.
  intros Hgood Hw. unfold main_iteration.
  apply wp_bind. eapply wp_mono; [by apply get_system_info_kept| |done].
  intros e w1 [Hw1 Hpstat]. simpl.
  apply wp_bind. eapply wp_mono; [apply insert_log_kept; [|done]| |done].
  { intros Hpop. apply Hgood. split; [done|]. simpl.
    destruct Hpstat as [-> | ->]; auto. }
  intros [] w2 Hw2. simpl. unfold still in *.
  wp_run_all; kept_solve Hw2.
Qed.

Lemma main_kept (samples interval : Z) (w : world) :
  (∀ s, sampled s → good s) →
  still w →
  wp (main E samples interval) (λ _ w', still w') (λ _ w', still w') w.
Proof.
  intros Hgood Hw. unfold main.
  apply wp_bind. unfold_calls. wp_step; [unfold still in *; kept_solve Hw|].
  apply wp_bind. eapply wp_mono; [apply init_db_kept| |done].
  { unfold still in *. kept_solve Hw. }
  intros [] w1 Hw1. simpl.
  apply wp_bind. wp_step; [unfold still in *; kept_solve Hw1|].
  apply wp_bind.
  eapply wp_mono with (X := λ _ w', still w');
    [apply (wp_for_range (λ _ w', still w'));
       [unfold still in *; kept_solve Hw1|]| |done].
  - intros i w2 _ Hw2. by apply main_iteration_kept.
  - intros [] w2 Hw2. simpl. by apply show_last_logs_kept.
Qed.

Lemma script_kept (samples interval : Z) (w : world) :
  (∀ s, sampled s → good s) →
  still w →
  wp (__main__ E samples interval) (λ _ w', still w') (λ _ w', still w') w.
Proof.
  intros Hgood Hw. unfold __main__. wp_step.
  eapply wp_mono; [by apply main_kept|done|].
  intros e w1 Hw1. simpl. destruct e; auto.
  unfold still in *. wp_run_all; kept_solve Hw1.
Qed.

End Kept.

(** ** Which calls are made, and which exceptions end the run *)

Lemma broke_record (h0 : list event) (W : world) (c : call) (e : exn) :
  fine h0 W → default_report_call c = true → broke h0 e (record W c (Some e)).
Proof.
  intros (seg & Htr & Hok) Hc. exists seg, c. unfold record. simpl.
  rewrite Htr. by rewrite <- app_assoc.
Qed.

(** Closes [fine h0 w'] for the world [w'] an execution path leaves. *)
Ltac fine_solve Hw :=
  let seg := fresh "seg" in
  let Htr := fresh "Htr" in
  let Hok := fresh "Hok" in
  destruct Hw as (seg & Htr & Hok);
  eexists; simpl; rewrite Htr; rewrite <- ?app_assoc; simpl;
  split; [reflexivity|];
  first [ assumption
        | apply Forall_app; split;
          [ assumption
          | repeat (apply Forall_cons_2; [reflexivity|]);
            apply Forall_nil_2 ] ].

Ltac discipline_solve Hw :=
  lazymatch goal with
  | |- broke _ _ (record _ _ _) => apply broke_record; [fine_solve Hw|reflexivity]
  | |- fine _ _ => fine_solve Hw
  end.

Section DisciplineRun.

Context (E : environment) (h0 : list event).

Lemma get_system_info_fine (w : world) :
  fine h0 w → wp (get_system_info E) (λ _ w', fine h0 w') (broke h0) w.
Proof.
  intros Hw. unfold get_system_info, ping_status.
  wp_run_all; discipline_solve Hw.
Qed.

Lemma init_db_fine (w : world) :
  fine h0 w → wp (init_db E) (λ _ w', fine h0 w') (broke h0) w.
Proof.
  intros Hw. unfold init_db. wp_run_all; discipline_solve Hw.
Qed.

Lemma insert_log_fine (e : entry) (w : world) :
  fine h0 w → wp (insert_log E e) (λ _ w', fine h0 w') (broke h0) w.
Proof.
  intros Hw. unfold insert_log. wp_run_all; discipline_solve Hw.
Qed.

Lemma show_last_logs_fine (w : world) :
  fine h0 w → wp (show_last_logs E 5) (λ _ w', fine h0 w') (broke h0) w.
Proof.
  intros Hw. unfold show_last_logs. wp_run_all; try discipline_solve Hw.
  all: match goal with
       | |- wp _ _ _ ?W => assert (fine h0 W) as HW by fine_solve Hw;
                           revert HW; generalize W; intros W' HW
       end.
  all: match goal with
       | |- context [select_recent ?k ?t] => destruct (select_recent k t) as [|r l]
       end.
  - wp_run_all; discipline_solve HW.
  - apply (wp_for_each (λ _ w', fine h0 w')); [done|].
    intros _ x w' Hw'. wp_run_all; discipline_solve Hw'.
Qed.

Lemma main_iteration_fine (samples interval i : Z) (w : world) :
  fine h0 w →
  wp (main_iteration E samples interval i) (λ _ w', fine h0 w') (broke h0) w.
Proof.
  intros Hw. unfold main_iteration.
  apply wp_bind. eapply wp_mono; [by apply get_system_info_fine| |done].
  intros e w1 Hw1. simpl.
  apply wp_bind. eapply wp_mono; [by apply insert_log_fine| |done].
  intros [] w2 Hw2. simpl.
  wp_run_all; discipline_solve Hw2.
Qed.

Lemma main_fine (samples interval : Z) (w : world) :
  fine h0 w → wp (main E samples interval) (λ _ w', fine h0 w') (broke h0) w.
Proof.
  intros Hw. unfold main.
  apply wp_bind. unfold_calls. wp_step; [discipline_solve Hw|].
  apply wp_bind. eapply wp_mono; [apply init_db_fine| |done].
  { fine_solve Hw. }
  intros [] w1 Hw1. simpl.
  apply wp_bind. wp_step; [discipline_solve Hw1|].
  apply wp_bind.
  eapply wp_mono with (X := broke h0);
    [apply (wp_for_range (λ _ w', fine h0 w')); [fine_solve Hw1|]| |done].
  - intros i w2 _ Hw2. by apply main_iteration_fine.
  - intros [] w2 Hw2. simpl. by apply show_last_logs_fine.
Qed.

Lemma script_fine (samples interval : Z) (w : world) :
  fine h0 w →
  wp (__main__ E samples interval) (λ _ w', fine h0 w') (broke h0) w.
Proof.
  intros Hw. unfold __main__. wp_step.
  eapply wp_mono; [by apply main_fine|done|].
  intros e w1 Hw1. simpl. destruct e; try done.
  assert (fine h0 w1) as Hfine.
  { destruct Hw1 as (seg & c & Htr & Hok & Hc). exists (seg ++ [Ev c (Some KeyboardInterrupt)]).
    split; [done|]. apply Forall_app. split; [done|].
    apply Forall_cons_2; [|apply Forall_nil_2].
    unfold ok_event.
    replace (absorbed (Ev c (Some KeyboardInterrupt))) with true by (by destruct c).
    exact Hc. }
  wp_run_all; discipline_solve Hfine.
Qed.

End DisciplineRun.

(** ** The trace of a run that completes *)

Lemma loop_events_app (E : environment) (samples interval i : Z)
    (l1 l2 : list (entry * option exn)) :
  loop_events E samples interval i (l1 ++ l2) =
  loop_events E samples interval i l1
  ++ loop_events E samples interval (i + Z.of_nat (length l1)) l2.
Proof.
  revert i. induction l1 as [|[e p] l1 IH]; intros i.
  - simpl. by replace (i + Z.of_nat 0) with i by lia.
  - cbn [app loop_events length]. rewrite IH, <- app_assoc.
    by replace (i + 1 + Z.of_nat (length l1))
      with (i + Z.of_nat (S (length l1))) by lia.
Qed.

Lemma insert_all_app (t : table) (es1 es2 : list entry) :
  insert_all t (es1 ++ es2) = insert_all t es1 ≫= λ t', insert_all t' es2.
Proof.
  revert t. induction es1 as [|e es1 IH]; intros t; simpl; [done|].
  destruct (table_insert t e); [apply IH|done].
Qed.

Lemma table_insert_size (t t' : table) (e : entry) :
  table_insert t e = inl t' → size (rows t') = S (size (rows t)).
Proof.
  intros (id & -> & _ & _ & Hnone & _)%table_insert_spec.
  by apply map_size_insert_None.
Qed.

Lemma insert_all_size (t t' : table) (es : list entry) :
  insert_all t es = Some t' → size (rows t') = (size (rows t) + length es)%nat.
Proof.
  revert t. induction es as [|e es IH]; intros t; simpl.
  - intros [= ->]. lia.
  - destruct (table_insert t e) as [t1|] eqn:Hins; [|done].
    intros ->%IH. apply table_insert_size in Hins. lia.
Qed.

Section Completed.

Context (E : environment).

Lemma main_iteration_completes (samples interval i : Z) (w : world) :
  wp (main_iteration E samples interval i)
     (λ _ w', ∃ e probe t t',
        db w = Some t ∧ table_insert t e = inl t' ∧ db w' = Some t' ∧
        probe_status (e, probe) ∧
        trace w' = trace w ++ tick_events E samples interval i e probe)
     (λ _ _, True) w.
Proof.
  unfold main_iteration, get_system_info, ping_status, insert_log.
  wp_run_all; try done.
  all: do 4 eexists; split; [reflexivity|]; split; [eassumption|];
    split; [reflexivity|]; split;
    [|unfold tick_events;
      repeat match goal with H : bool_decide _ = _ |- _ => rewrite H end;
      simpl; rewrite <- ?app_assoc; reflexivity];
    by unfold probe_status.
Qed.

Lemma report_completes (empty : line) (fetched : list row) (w : world) :
  wp (match fetched with
      | [] => print E empty
      | _ => for_each (print_row E) fetched
      end)
     (λ _ w', db w' = db w ∧ trace w' = trace w ++ report_lines empty fetched)
     (λ _ _, True) w.
Proof.
  destruct fetched as [|r l].
  - wp_run_all; done.
  - eapply wp_mono with (X := λ _ _, True);
      [apply (wp_for_each
                (λ done w', db w' = db w ∧
                   trace w' = trace w ++ ((λ r, Ev (Print (LRow r)) None) <$> done)))
      |done|done].
    + by rewrite app_nil_r.
    + intros done x w' [Hdb Htr]. wp_run_all; try done. simpl.
      split; [done|]. by rewrite Htr, fmap_app, <- app_assoc.
Qed.

Lemma show_last_logs_completes (limit : Z) (w : world) :
  wp (show_last_logs E limit)
     (λ _ w', ∃ t, db w = Some t ∧ db w' = db w ∧
        trace w' = trace w ++ show_last_logs_events limit (select_recent limit t))
     (λ _ _, True) w.
Proof.
  unfold show_last_logs. wp_run_all; try done.
  eapply wp_mono; [apply report_completes| |done].
  simpl. intros _ w' [Hdb Htr]. eexists. split; [reflexivity|].
  split; [by rewrite Hdb|].
  rewrite Htr. unfold show_last_logs_events. by rewrite <- !app_assoc.
Qed.

Lemma main_completes (samples interval : Z) (w : world) :
  wp (main E samples interval)
     (λ _ w', ∃ ticks t',
        length ticks = Z.to_nat samples ∧
        insert_all (default empty_table (db w)) ticks.*1 = Some t' ∧
        db w' = Some t' ∧
        Forall probe_status ticks ∧
        trace w' = trace w ++ init_events samples interval
                   ++ loop_events E samples interval 0 ticks
                   ++ show_last_logs_events 5 (select_recent 5 t'))
     (λ _ _, True) w.
Proof.
  unfold main, init_db. wp_run_all; try done.
  match goal with |- wp _ _ _ ?W => set (w0 := W) end.
  set (t0 := default empty_table (db w)).
  eapply wp_mono with (X := λ _ _, True);
    [apply (wp_for_range
              (λ i w1, ∃ ticks t,
                 Z.of_nat (length ticks) = i ∧
                 insert_all t0 ticks.*1 = Some t ∧ db w1 = Some t ∧
                 Forall probe_status ticks ∧
                 trace w1 = trace w0 ++ loop_events E samples interval 0 ticks))
    | |done].
  - exists [], t0. subst w0 t0. simpl. rewrite app_nil_r.
    repeat split; try done. by destruct (db w).
  - intros i w1 _ (ticks & t & Hlen & Hins & Hdb & Hprobe & Htr).
    eapply wp_mono; [apply main_iteration_completes| |done].
    simpl. intros _ w2 (e & probe & t1 & t2 & Hdb1 & Hins1 & Hdb2 & Hp & Htr2).
    rewrite Hdb in Hdb1. injection Hdb1 as <-.
    exists (ticks ++ [(e, probe)]), t2.
    rewrite length_app, fmap_app, insert_all_app, Hins, loop_events_app. simpl.
    rewrite Hins1, app_nil_r.
    split; [lia|]. split; [done|]. split; [done|].
    split; [apply Forall_app; split; [done|by apply Forall_singleton]|].
    rewrite Htr2, Htr, <- app_assoc. by rewrite Hlen.
  - simpl. intros _ w1 (ticks & t & Hlen & Hins & Hdb & Hprobe & Htr).
    eapply wp_mono; [apply show_last_logs_completes| |done].
    simpl. intros _ w2 (t' & Hdb' & Hdb2 & Htr2).
    rewrite Hdb in Hdb'. injection Hdb' as <-.
    exists ticks, t. split; [lia|]. split; [done|].
    split; [by rewrite Hdb2|]. split; [done|].
    rewrite Htr2, Htr. subst w0. simpl. unfold init_events.
    by rewrite <- !app_assoc.
Qed.

End Completed.

(** ** Rows and waits: what an interrupt during a wait finds *)

Lemma count_sleeps_app (l1 l2 : list event) :
  count_sleeps (l1 ++ l2) = (count_sleeps l1 + count_sleeps l2)%nat.
Proof.
  induction l1 as [|[c o] l1 IH]; simpl; [done|].
  destruct c; simpl; lia.
Qed.

Lemma rows_of_create (d : database) :
  rows_of (create_table_if_not_exists d) = rows_of d.
Proof. by destruct d. Qed.

Section Waits.

Context (h0 : list event) (r0 : nat).

Lemma cut_short_other (W : world) (c : call) (e : exn) :
  (∀ secs, c ≠ Sleep secs) → cut_short h0 r0 e (record W c (Some e)).
Proof.
  intros Hc pre secs. unfold record. simpl. rewrite (app_assoc h0).
  intros [_ [= -> ]]%app_inj_tail. by destruct (Hc secs).
Qed.

Lemma cut_short_sleep (W : world) (secs : Z) (e : exn) :
  balance h0 (S r0) W → cut_short h0 r0 e (record W (Sleep secs) (Some e)).
Proof.
  intros (seg & Htr & Hsize) pre secs'. unfold record. simpl.
  rewrite (app_assoc h0). intros [Htr' _]%app_inj_tail.
  rewrite Htr in Htr'. apply app_inv_head in Htr' as <-. rewrite Hsize. lia.
Qed.

End Waits.

(** Closes [balance h0 k' w'] for the world an execution path leaves. *)
Ltac balance_solve Hw :=
  let seg := fresh "seg" in
  let Htr := fresh "Htr" in
  let Hsize := fresh "Hsize" in
  destruct Hw as (seg & Htr & Hsize);
  eexists; simpl; rewrite Htr; rewrite <- ?app_assoc; simpl;
  split; [reflexivity|];
  rewrite ?count_sleeps_app; simpl;
  rewrite ?rows_of_create;
  repeat match goal with
    | H : table_insert _ _ = inl _ |- _ => apply table_insert_size in H
    | H : db _ = _ |- _ => rewrite H in Hsize; simpl in Hsize
    end;
  lia.

Ltac waits_solve Hw :=
  lazymatch goal with
  | |- cut_short _ _ _ (record _ (Sleep _) _) =>
      apply cut_short_sleep; balance_solve Hw
  | |- cut_short _ _ _ (record _ _ _) => apply cut_short_other; by intros ?
  | |- balance _ _ _ => balance_solve Hw
  end.

Section WaitsRun.

Context (E : environment) (h0 : list event) (r0 : nat).

Lemma get_system_info_balance (k : nat) (w : world) :
  balance h0 k w →
  wp (get_system_info E) (λ _ w', balance h0 k w') (cut_short h0 r0) w.
Proof.
  intros Hw. unfold get_system_info, ping_status.
  wp_run_all; waits_solve Hw.
Qed.

Lemma insert_log_balance (e : entry) (k : nat) (w : world) :
  balance h0 k w →
  wp (insert_log E e) (λ _ w', balance h0 (S k) w') (cut_short h0 r0) w.
Proof.
  intros Hw. unfold insert_log. wp_run_all; waits_solve Hw.
Qed.

Lemma main_iteration_balance (samples interval i : Z) (w : world) :
  balance h0 r0 w →
  wp (main_iteration E samples interval i)
     (λ _ w', i + 1 < samples → balance h0 r0 w') (cut_short h0 r0) w.
Proof.
  intros Hw. unfold main_iteration.
  apply wp_bind.
  eapply wp_mono; [apply (get_system_info_balance r0 w Hw)| |done].
  intros e w1 Hw1. simpl.
  apply wp_bind.
  eapply wp_mono; [apply (insert_log_balance e r0 w1 Hw1)| |done].
  intros [] w2 Hw2. simpl.
  wp_run_all; try waits_solve Hw2.
  - intros _. waits_solve Hw2.
  - intros Hlt.
    match goal with
    | H : bool_decide (i < samples - 1) = false |- _ =>
        apply bool_decide_eq_false_1 in H; lia
    end.
Qed.

Lemma main_balance (samples interval : Z) (w : world) :
  balance h0 r0 w →
  wp (main E samples interval) (λ _ _, True) (cut_short h0 r0) w.
Proof.
  intros Hw. unfold main, init_db. unfold_calls.
  do 12 (try wp_step; try waits_solve Hw).
  match goal with
  | |- wp _ _ _ ?W => assert (balance h0 r0 W) as HW by balance_solve Hw;
                      revert HW; generalize W; intros W' HW
  end.
  apply wp_bind.
  eapply wp_mono with (X := cut_short h0 r0);
    [apply (wp_for_range (λ i w', i < samples → balance h0 r0 w')); [done|]
    | |done].
  - intros i w1 Hi Hw1. apply main_iteration_balance, Hw1. lia.
  - intros [] w1 _. simpl. unfold show_last_logs. unfold_calls.
    do 8 (try wp_step; try (apply cut_short_other; by intros ?)).
    match goal with
    | |- context [select_recent ?k ?t] => destruct (select_recent k t) as [|r l]
    end.
    + wp_run_all; first [done|apply cut_short_other; by intros ?].
    + eapply wp_mono with (X := cut_short h0 r0);
        [apply (wp_for_each (λ _ _, True)); [done|]|done|done].
      intros _ x w' _.
      wp_run_all; first [done|apply cut_short_other; by intros ?].
Qed.

End WaitsRun.

(** ** A run in a calm environment returns *)

Lemma elem_of_rowids (m : gmap Z sample) (k : Z) :
  k ∈ rowids m ↔ is_Some (m !! k).
Proof.
  unfold rowids. rewrite list_elem_of_fmap. split.
  - intros ([k' s] & -> & Hks). apply elem_of_map_to_list in Hks. by exists s.
  - intros [s Hs]. exists (k, s). split; [done|]. by apply elem_of_map_to_list.
Qed.

Lemma foldr_max_le (k0 b : Z) (l : list Z) :
  k0 ≤ b → (∀ k, k ∈ l → k ≤ b) → foldr Z.max k0 l ≤ b.
Proof.
  intros Hk0. induction l as [|x l IH]; intros Hl; simpl; [done|].
  apply Z.max_lub.
  - apply Hl. by left.
  - apply IH. intros k Hk. apply Hl. by right.
Qed.

Lemma table_insert_room (t : table) (e : entry) :
  top_id t < INT64_MAX → populated (bind_entry e) = true →
  ∃ t', table_insert t e = inl t' ∧ top_id t' ≤ top_id t + 1 ∧
        rows t' = <[seq t' := bind_entry e]> (rows t).
Proof.
  unfold top_id. intros Hroom Hpop.
  destruct (foldr_max_ge 0 (rowids (rows t))) as [Htop0 Htop].
  assert (∃ v, after_last_rowid (rows t) = Some v ∧
               v ≤ foldr Z.max 0 (rowids (rows t)) + 1) as (v & Hv & Hbound).
  { unfold after_last_rowid. destruct (rowids (rows t)) as [|k0 ks] eqn:Hids.
    - exists 1. split; [done|]. simpl. lia.
    - assert (foldr Z.max k0 ks ≤ foldr Z.max 0 (k0 :: ks)) as Hle.
      { apply foldr_max_le.
        - apply Htop. by left.
        - intros k Hk. apply Htop. by right. }
      rewrite bool_decide_eq_false_2 by lia.
      eexists. split; [done|]. lia. }
  unfold table_insert, new_rowid. rewrite Hv.
  rewrite bool_decide_eq_false_2 by lia. rewrite Hpop.
  eexists. split; [done|]. simpl. split; [|done].
  apply Z.max_lub; [lia|].
  apply foldr_max_le; [lia|]. intros k [s Hk]%elem_of_rowids.
  apply lookup_insert_Some in Hk as [[<- _]|[_ Hk]]; [lia|].
  assert (k ≤ foldr Z.max 0 (rowids (rows t))); [|lia].
  apply Htop, elem_of_rowids. by exists s.
Qed.

(** One step of symbolic execution in a calm environment. *)
Ltac wp_calm Hcalm :=
  lazymatch goal with
  | |- wp (mret _) _ _ _ => apply wp_ret
  | |- wp (mbind _ _) _ _ _ => apply wp_bind
  | |- wp (try_except _ _ _) _ _ _ => apply wp_try_except
  | |- wp (external _ _ _) _ _ _ =>
      apply wp_external;
      rewrite ?(proj1 (Hcalm _ _)), ?(proj2 (Hcalm _ _)); simpl
  end.

Section Returns.

Context (E : environment) (Hcalm : calm E) (Hnum : numeric_readings E).

Lemma bind_entry_populated (ts pstat : string) (h1 h2 h3 : list event) :
  populated (bind_entry (Entry ts (cpu_percent E h1) (virtual_memory_percent E h2)
                           (disk_usage_percent E h3) pstat)) = true.
Proof.
  unfold bind_entry, bind_real, populated. simpl.
  by rewrite (proj1 (Hnum h1)), (proj1 (proj2 (Hnum h2))), (proj2 (proj2 (Hnum h3))).
Qed.

Lemma bind_entry_formats (ts pstat : string) (h1 h2 h3 : list event) (id : Z) :
  format_row (id, bind_entry (Entry ts (cpu_percent E h1)
                                (virtual_memory_percent E h2)
                                (disk_usage_percent E h3) pstat)) = None.
Proof.
  unfold bind_entry, bind_real, format_row. simpl.
  by rewrite (proj1 (Hnum h1)), (proj1 (proj2 (Hnum h2))), (proj2 (proj2 (Hnum h3))).
Qed.

Lemma get_system_info_returns (w : world) :
  wp (get_system_info E)
     (λ e w', db w' = db w ∧ populated (bind_entry e) = true ∧
              ∀ id, format_row (id, bind_entry e) = None)
     (λ _ _, False) w.
Proof.
  unfold get_system_info, ping_status. unfold_calls.
  repeat wp_calm Hcalm. head_cases; repeat wp_calm Hcalm.
  all: split; [done|]; split;
    [apply bind_entry_populated|intros id; apply bind_entry_formats].
Qed.

Lemma insert_log_returns (e : entry) (t : table) (w : world) :
  db w = Some t → top_id t < INT64_MAX → populated (bind_entry e) = true →
  wp (insert_log E e)
     (λ _ w', ∃ t', db w' = Some t' ∧ top_id t' ≤ top_id t + 1 ∧
                    rows t' = <[seq t' := bind_entry e]> (rows t))
     (λ _ _, False) w.
Proof.
  intros Hdb Hroom Hpop.
  destruct (table_insert_room t e Hroom Hpop) as (t' & Hins & Htop & Hrows).
  unfold insert_log. unfold_calls.
  repeat wp_calm Hcalm. rewrite Hdb. simpl. rewrite Hins.
  repeat wp_calm Hcalm. eauto.
Qed.

Lemma main_iteration_returns (samples interval i : Z) (t : table) (w : world) :
  db w = Some t → top_id t < INT64_MAX → real_columns t →
  (i < samples - 1 → 0 ≤ interval) →
  wp (main_iteration E samples interval i)
     (λ _ w', ∃ t', db w' = Some t' ∧ top_id t' ≤ top_id t + 1 ∧ real_columns t')
     (λ _ _, False) w.
Proof.
  intros Hdb Hroom Hreal Hinterval. unfold main_iteration.
  apply wp_bind. eapply wp_mono; [apply get_system_info_returns| |done].
  intros e w1 (Hdb1 & Hpop & Hformat). simpl.
  apply wp_bind.
  eapply wp_mono;
    [apply (insert_log_returns e t); [by rewrite Hdb1|done|done]| |done].
  intros [] w2 (t' & Hdb2 & Htop & Hrows). simpl.
  assert (real_columns t') as Hreal'.
  { intros id s. rewrite Hrows.
    intros [[_ <-]|[_ Hs]]%lookup_insert_Some; [apply Hformat|by apply (Hreal id)]. }
  unfold_calls. repeat wp_calm Hcalm.
  case_bool_decide as Hlast.
  - wp_calm Hcalm. rewrite bool_decide_eq_false_2 by (specialize (Hinterval Hlast); lia).
    eauto.
  - wp_calm Hcalm. eauto.
Qed.

(** In a calm environment with numeric readings, a non-negative interval
    whenever the loop waits, a table whose rows can be formatted, and
    [samples] ids still free, [main] returns normally. *)
Lemma main_returns (samples interval : Z) (w : world) :
  (1 < samples → 0 ≤ interval) →
  (∀ t, db w = Some t → real_columns t) →
  top_id (default empty_table (db w)) + samples ≤ INT64_MAX →
  (main E samples interval w).1 = inl tt.
Proof.
  intros Hinterval Hreal Hroom.
  cut (wp (main E samples interval) (λ _ _, True) (λ _ _, False) w).
  { unfold wp. by destruct (main E samples interval w) as [[[]|e] w']. }
  unfold main.
  apply wp_bind. unfold print at 1. wp_calm Hcalm.
  apply wp_bind. unfold wp at 1. rewrite init_db_calm by done. simpl.
  apply wp_bind. unfold print at 1. wp_calm Hcalm.
  apply wp_bind.
  eapply wp_mono with (X := λ _ _, False);
    [apply (wp_for_range
              (λ i w1, ∃ t, db w1 = Some t ∧ real_columns t ∧
                            top_id t + (samples - i) ≤ INT64_MAX))
    | |done].
  - exists (default empty_table (db w)). simpl.
    destruct (db w) as [t|] eqn:Hdb; simpl in *.
    + split; [done|]. split; [by apply Hreal|lia].
    + split; [done|]. split; [by intros id s Hs|lia].
  - intros i w1 Hi (t & Hdb & Hreal1 & Hroom1).
    eapply wp_mono;
      [apply (main_iteration_returns samples interval i t); [done|lia|done|lia]
      | |done].
    simpl. intros _ w2 (t' & Hdb2 & Htop & Hreal2).
    exists t'. split; [done|]. split; [done|lia].
  - simpl. intros _ w1 (t & Hdb & Hreal1 & _).
    unfold wp. by rewrite (show_last_logs_calm E w1 t 5).
Qed.

End Returns.

(** ** The claims about whole runs *)


(** C5: every operation of the program leaves each row that was stored
    before under the same id with the same content (no update, no delete),
    and every row it adds has its five data fields non-null.  The rows
    added by [main] and by the entry point moreover carry the status UP or
    DOWN, because the sampler never returns another status. *)
Theorem stored_samples_populated_and_immutable
    (E : environment) (op : operation) (w : world) :
  let w' := run_operation E op w in
  kept (λ s, populated s = true) (db w) (db w') ∧
  (∀ samples interval,
     op = CallMain samples interval ∨ op = CallScript samples interval →
     kept sampled (db w) (db w')) ∧
  (∀ e w1, get_system_info E w = (inl e, w1) →
           e_pstat e = "UP" ∨ e_pstat e = "DOWN").
Proof.
  intros w'. subst w'. split; [|split].
  - destruct op; simpl; apply (wp_always _ (λ w', kept _ (db w) (db w'))).
    + apply init_db_kept, kept_refl.
    + apply ping_status_kept, kept_refl.
    + eapply wp_mono;
        [apply (get_system_info_kept E (λ s, populated s = true) (db w) w
                  (kept_refl _ _))
        | |done].
      by intros ?? [? _].
    + apply insert_log_kept; [done|apply kept_refl].
    + apply show_last_logs_kept, kept_refl.
    + apply show_failed_pings_kept, kept_refl.
    + apply main_kept; [by intros s []|apply kept_refl].
    + apply script_kept; [by intros s []|apply kept_refl].
  - intros samples interval [-> | ->]; simpl;
      apply (wp_always _ (λ w', kept _ (db w) (db w'))).
    + apply main_kept; [done|apply kept_refl].
    + apply script_kept; [done|apply kept_refl].
  - intros e w1 Hrun.
    by pose proof (wp_run _ _ _ _ _ _
      (get_system_info_kept E (λ _, True) (db w) w (kept_refl _ _)) Hrun)
      as [_ ?].
Qed.

Lemma raised_is_last (P : event → Prop) (pre post pre' : list event) (x y : event) :
  pre ++ x :: post = pre' ++ [y] → Forall P pre' → ¬ P x → post = [] ∧ x = y.
Proof.
  intros Heq Hall Hx. destruct post as [|z post _] using rev_ind.
  - by apply app_inj_tail in Heq as [_ ->].
  - exfalso. apply Hx.
    replace (pre ++ x :: post ++ [z]) with ((pre ++ x :: post) ++ [z]) in Heq
      by by rewrite <- app_assoc.
    apply app_inj_tail in Heq as [<- _].
    apply Forall_app in Hall as [_ Hall]. by apply Forall_cons in Hall as [? _].
Qed.

Lemma script_discipline (E : environment) (samples interval : Z) (w : world) :
  ∃ seg, trace (__main__ E samples interval w).2 = trace w ++ seg ∧
    match (__main__ E samples interval w).1 with
    | inl _ => Forall (λ ev, ok_event ev = true) seg
    | inr e => ∃ pre c, seg = pre ++ [Ev c (Some e)] ∧
                        Forall (λ ev, ok_event ev = true) pre ∧
                        default_report_call c = true
    end.
Proof.
  assert (fine (trace w) w) as Hw.
  { exists []. by rewrite app_nil_r. }
  pose proof (script_fine E (trace w) samples interval w Hw) as Hwp.
  unfold wp in Hwp.
  destruct (__main__ E samples interval w) as [[[]|e] w']; simpl.
  - done.
  - destruct Hwp as (seg & c & Htr & Hok & Hc). eauto 10.
Qed.

(** C9: in a run of the entry point, an exception other than
    [KeyboardInterrupt] raised by a call on the database file (in
    particular by the connect, the INSERT or the commit of [insert_log]) is
    the last event of the run, and the run ends by raising that exception:
    nothing catches it and nothing runs after it. *)
Theorem storage_error_aborts_run
    (E : environment) (samples interval : Z) (w : world)
    (pre post : list event) (c : call) (e : exn) :
  let r := (__main__ E samples interval w).1 in
  let w' := (__main__ E samples interval w).2 in
  trace w' = trace w ++ pre ++ Ev c (Some e) :: post →
  storage_call c = true →
  e ≠ KeyboardInterrupt →
  r = inr e ∧ post = [].
Proof.
  intros r w' Htr Hc He. subst r w'.
  destruct (script_discipline E samples interval w) as (seg & Hseg & Hres).
  rewrite Hseg in Htr. apply app_inv_head in Htr. subst seg.
  assert (ok_event (Ev c (Some e)) ≠ true) as Hbad.
  { unfold ok_event. destruct c, e; simpl in *; done. }
  destruct (__main__ E samples interval w).1 as [[]|e'].
  - apply Forall_app in Hres as [_ Hres]. by apply Forall_cons in Hres as [? _].
  - destruct Hres as (pre' & c' & Heq & Hok & _).
    destruct (raised_is_last _ _ _ _ _ _ Heq Hok Hbad) as [-> [= -> ->]].
    done.
Qed.

(** C10: whatever happens, a run of the entry point never issues the
    DOWN-filtered query nor prints the header or the placeholder of the
    failed-ping report, and every recent-rows query it issues has limit 5.
    When [main] returns normally, the run ends with the recent-rows report
    of limit 5 on the table it leaves. *)
Theorem default_run_reports_recent_only
    (E : environment) (samples interval : Z) (w : world) :
  let r := (main E samples interval w).1 in
  let w' := (__main__ E samples interval w).2 in
  ∃ seg, trace w' = trace w ++ seg ∧
    (∀ o, Ev (Execute SelectDown) o ∉ seg) ∧
    (∀ o, Ev (Print LFailedHeader) o ∉ seg) ∧
    (∀ o, Ev (Print LNone) o ∉ seg) ∧
    (∀ limit o, Ev (Execute (SelectRecent limit)) o ∈ seg → limit = 5) ∧
    (r = inl tt →
       ∃ pre t', db w' = Some t' ∧
                 seg = pre ++ show_last_logs_events 5 (select_recent 5 t')).
Proof.
  intros r w'. subst r w'.
  destruct (script_discipline E samples interval w) as (seg & Hseg & Hres).
  exists seg. split; [done|].
  assert (∀ ev, ev ∈ seg → default_report_call (ev_call ev) = true) as Hcalls.
  { intros ev Hev.
    destruct (__main__ E samples interval w).1 as [[]|e'].
    - rewrite Forall_forall in Hres. specialize (Hres ev Hev).
      unfold ok_event in Hres. by apply andb_true_iff in Hres as [_ ?].
    - destruct Hres as (pre' & c' & -> & Hok & Hc').
      apply elem_of_app in Hev as [Hev|Hev%list_elem_of_singleton].
      + rewrite Forall_forall in Hok. specialize (Hok ev Hev).
        unfold ok_event in Hok. by apply andb_true_iff in Hok as [_ ?].
      + by subst ev. }
  split; [intros o Hin; by apply Hcalls in Hin|].
  split; [intros o Hin; by apply Hcalls in Hin|].
  split; [intros o Hin; by apply Hcalls in Hin|].
  split.
  { intros limit o Hin. apply Hcalls in Hin. simpl in Hin.
    by apply bool_decide_eq_true_1 in Hin. }
  intros Hmain.
  destruct (main E samples interval w) as [r1 w1] eqn:Hrun. simpl in Hmain.
  subst r1.
  pose proof (wp_run _ _ _ _ _ _ (main_completes E samples interval w) Hrun)
    as (ticks & t' & _ & _ & Hdb & _ & Htr).
  assert (__main__ E samples interval w = (inl tt, w1)) as Hscript.
  { unfold __main__, try_except. by rewrite Hrun. }
  rewrite Hscript in Hseg |- *. simpl in *.
  rewrite Htr in Hseg. apply app_inv_head in Hseg. subst seg.
  exists (init_events samples interval ++ loop_events E samples interval 0 ticks), t'.
  split; [done|]. by rewrite <- app_assoc.
Qed.

(** C6: suppose [main] is cut by a [KeyboardInterrupt] raised in a wait,
    the [i]-th wait of the run (so the interrupt arrives between sample [i]
    and sample [i+1]), and no second interrupt arrives while the notice is
    printed.  Then the entry point prints the notice and returns normally
    instead of raising; the table holds exactly [i] rows more than before
    the run; every row stored before is still there with the same content;
    and each added row is complete: no NULL field, status UP or DOWN. *)
Theorem interrupt_between_samples_keeps_rows
    (E : environment) (samples interval : Z) (w w1 : world)
    (pre : list event) (secs : Z) (i : nat) :
  main E samples interval w = (inr KeyboardInterrupt, w1) →
  trace w1 = trace w ++ pre ++ [Ev (Sleep secs) (Some KeyboardInterrupt)] →
  S (count_sleeps pre) = i →
  sigint E (trace w1) (Print LInterrupted) = false →
  __main__ E samples interval w =
    (inl tt, {| db := db w1;
                trace := trace w1 ++ [Ev (Print LInterrupted) None] |}) ∧
  size (rows_of (db w1)) = (size (rows_of (db w)) + i)%nat ∧
  kept sampled (db w) (db w1).
Proof.
  intros Hrun Htr Hi Hsig. split; [|split].
  - unfold __main__, try_except. rewrite Hrun.
    unfold print, external. by rewrite Hsig.
  - assert (balance (trace w) (size (rows_of (db w))) w) as Hw.
    { exists []. rewrite app_nil_r. split; [done|]. simpl. lia. }
    pose proof (wp_run _ _ _ _ _ _
      (main_balance E (trace w) _ samples interval w Hw) Hrun) as Hcut.
    simpl in Hcut. rewrite (Hcut pre secs Htr). lia.
  - pose proof (wp_always _ _ _
      (main_kept E sampled (db w) samples interval w (λ _ H, H) (kept_refl _ _)))
      as Hkept.
    by rewrite Hrun in Hkept.
Qed.

(** ** The theorems at concrete runs *)


Lemma init_db_idempotent_witness :
  let w1 := (init_db quiet_env fresh_world).2 in
  let w2 := (init_db quiet_env w1).2 in
  (init_db quiet_env fresh_world).1 = inl tt ∧
  db w1 = Some empty_table ∧ db w2 = db w1.
Proof.
  intros w1 w2.
  destruct (init_db_idempotent quiet_env fresh_world) as (Hfirst & _).
  destruct (Hfirst eq_refl) as (Hdb1 & _ & Hdb2).
  split; [reflexivity|]. split; [exact Hdb1|exact Hdb2].
Defined.

Lemma autoincrement_ids_strictly_increase_witness :
  let ops := [OpInsert up_entry; OpInsert up_entry; OpRemove [2]; OpInsert up_entry] in
  let w := {| db := Some empty_table; trace := [] |} in
  (run_ops quiet_env ops w).1 = [1; 2; 3] ∧
  StronglySorted Z.lt (run_ops quiet_env ops w).1.
Proof.
  intros ops w. split; [vm_compute; reflexivity|].
  exact (proj1 (autoincrement_ids_strictly_increase quiet_env ops w)).
Defined.

Lemma stored_samples_populated_and_immutable_witness :
  let w := {| db := Some three_rows; trace := [] |} in
  let w' := run_operation unreachable_env (CallScript 2 0) w in
  size (rows_of (db w')) = 5%nat ∧ kept sampled (db w) (db w').
Proof.
  intros w w'. split; [vm_compute; reflexivity|].
  destruct (stored_samples_populated_and_immutable
              unreachable_env (CallScript 2 0) w) as (_ & Hscript & _).
  exact (Hscript 2 0 (or_intror eq_refl)).
Defined.


Lemma interrupt_between_samples_keeps_rows_witness :
  let w1 := (main interrupting_env 3 0 fresh_world).2 in
  let pre := removelast (trace w1) in
  main interrupting_env 3 0 fresh_world = (inr KeyboardInterrupt, w1) ∧
  trace w1 = trace fresh_world ++ pre ++ [Ev (Sleep 0) (Some KeyboardInterrupt)] ∧
  S (count_sleeps pre) = 2%nat ∧
  sigint interrupting_env (trace w1) (Print LInterrupted) = false ∧
  __main__ interrupting_env 3 0 fresh_world =
    (inl tt, {| db := db w1;
                trace := trace w1 ++ [Ev (Print LInterrupted) None] |}) ∧
  size (rows_of (db w1)) = (size (rows_of (db fresh_world)) + 2)%nat.
Proof.
  intros w1 pre.
  assert (main interrupting_env 3 0 fresh_world = (inr KeyboardInterrupt, w1))
    as Hrun by (vm_compute; reflexivity).
  assert (trace w1
          = trace fresh_world ++ pre ++ [Ev (Sleep 0) (Some KeyboardInterrupt)])
    as Htr by (vm_compute; reflexivity).
  assert (S (count_sleeps pre) = 2%nat) as Hi by (vm_compute; reflexivity).
  assert (sigint interrupting_env (trace w1) (Print LInterrupted) = false)
    as Hsig by reflexivity.
  destruct (interrupt_between_samples_keeps_rows
              interrupting_env 3 0 fresh_world w1 pre 0 2 Hrun Htr Hi Hsig)
    as (Hscript & Hsize & _).
  split; [exact Hrun|]. split; [exact Htr|]. split; [exact Hi|].
  split; [exact Hsig|]. split; [exact Hscript|exact Hsize].
Defined.

Lemma storage_error_aborts_run_witness :
  let w' := (__main__ failing_env 3 0 fresh_world).2 in
  let pre := removelast (trace w') in
  trace w' = trace fresh_world ++ pre
             ++ Ev Commit (Some (OperationalError Unwritable)) :: [] ∧
  storage_call Commit = true ∧
  OperationalError Unwritable ≠ KeyboardInterrupt ∧
  (__main__ failing_env 3 0 fresh_world).1 = inr (OperationalError Unwritable) ∧
  size (rows_of (db w')) = 1%nat.
Proof.
  intros w' pre.
  assert (trace w' = trace fresh_world ++ pre
                     ++ Ev Commit (Some (OperationalError Unwritable)) :: [])
    as Htr by (vm_compute; reflexivity).
  assert (OperationalError Unwritable ≠ KeyboardInterrupt) as Hne by discriminate.
  split; [exact Htr|]. split; [reflexivity|]. split; [exact Hne|].
  split; [|vm_compute; reflexivity].
  exact (proj1 (storage_error_aborts_run failing_env 3 0 fresh_world pre []
                  Commit (OperationalError Unwritable) Htr eq_refl Hne)).
Defined.

Lemma default_run_reports_recent_only_witness :
  let w' := (__main__ quiet_env SAMPLES INTERVAL_SEC fresh_world).2 in
  ∃ seg, trace w' = trace fresh_world ++ seg ∧
    (∀ o, Ev (Execute SelectDown) o ∉ seg) ∧
    ∃ pre t', db w' = Some t' ∧
              seg = pre ++ show_last_logs_events 5 (select_recent 5 t').
Proof.
  intros w'.
  destruct (default_run_reports_recent_only
              quiet_env SAMPLES INTERVAL_SEC fresh_world)
    as (seg & Htr & Hdown & _ & _ & _ & Hreport).
  exists seg. split; [exact Htr|]. split; [exact Hdown|].
  apply Hreport. vm_compute. reflexivity.
Defined.

(** * Further properties of the code *)

(** ** Operations that only read *)

(** Closes [db w' = d] for the world [w'] an execution path leaves. *)
Ltac same_db_solve Hw :=
  unfold record; simpl; first [ exact Hw | congruence ].

Section ReadOnly.

Context (E : environment) (d0 : database).

Lemma ping_status_same_db (host : string) (timeout_sec : Z) (w : world) :
  db w = d0 →
  wp (ping_status E host timeout_sec) (λ _ w', db w' = d0) (λ _ w', db w' = d0) w.
Proof.
  intros Hw. unfold ping_status. wp_run_all; same_db_solve Hw.
Qed.

Lemma get_system_info_same_db (w : world) :
  db w = d0 →
  wp (get_system_info E) (λ _ w', db w' = d0) (λ _ w', db w' = d0) w.
Proof.
  intros Hw. unfold get_system_info, ping_status. wp_run_all; same_db_solve Hw.
Qed.

Lemma report_same_db (empty : line) (fetched : list row) (w : world) :
  db w = d0 →
  wp (match fetched with
      | [] => print E empty
      | _ => for_each (print_row E) fetched
      end) (λ _ w', db w' = d0) (λ _ w', db w' = d0) w.
Proof.
  intros Hw. destruct fetched as [|r l].
  - wp_run_all; same_db_solve Hw.
  - apply (wp_for_each (λ _ w', db w' = d0)); [done|].
    intros _ x w' Hw'. wp_run_all; same_db_solve Hw'.
Qed.

Lemma show_last_logs_same_db (limit : Z) (w : world) :
  db w = d0 →
  wp (show_last_logs E limit) (λ _ w', db w' = d0) (λ _ w', db w' = d0) w.
Proof.
  intros Hw. unfold show_last_logs.
  wp_run_all; try (apply report_same_db); same_db_solve Hw.
Qed.

Lemma show_failed_pings_same_db (w : world) :
  db w = d0 →
  wp (show_failed_pings E) (λ _ w', db w' = d0) (λ _ w', db w' = d0) w.
Proof.
  intros Hw. unfold show_failed_pings.
  wp_run_all; try (apply report_same_db); same_db_solve Hw.
Qed.

End ReadOnly.

(** X1: the probe, the sampler and the two reports never write: in every
    environment and however they end (return, interrupt, error), they leave
    the database exactly as it was, rows and id counter alike.  [init_db]
    does the same to a database that already holds the table. *)
Theorem read_only_operations_leave_database
    (E : environment) (host : string) (timeout_sec limit : Z) (w : world) :
  db (ping_status E host timeout_sec w).2 = db w ∧
  db (get_system_info E w).2 = db w ∧
  db (show_last_logs E limit w).2 = db w ∧
  db (show_failed_pings E w).2 = db w ∧
  (is_Some (db w) → db (init_db E w).2 = db w).
Proof.
  split; [|split; [|split; [|split]]].
  - apply (wp_always _ (λ w', db w' = db w)). by apply ping_status_same_db.
  - apply (wp_always _ (λ w', db w' = db w)). by apply get_system_info_same_db.
  - apply (wp_always _ (λ w', db w' = db w)). by apply show_last_logs_same_db.
  - apply (wp_always _ (λ w', db w' = db w)). by apply show_failed_pings_same_db.
  - intros [t Ht]. destruct (init_db_db E w) as [->| ->]; [done|].
    by rewrite Ht.
Qed.

(** ** Statements the engine refuses *)

(** One external call in a calm environment. *)
Ltac calm_call Hcalm :=
  unfold external at 1;
  rewrite ?(proj1 (Hcalm _ _)), ?(proj2 (Hcalm _ _)); simpl.

Section NoTable.

Context (E : environment).

Let gone (w : world) : Prop := db w = None.

Lemma insert_log_no_table (e : entry) (w : world) :
  gone w → wp (insert_log E e) (λ _ _, False) (λ _ w', gone w') w.
Proof.
  unfold gone. intros Hw. unfold insert_log.
  wp_run_all; unfold record; simpl; congruence.
Qed.

Lemma show_last_logs_no_table (limit : Z) (w : world) :
  gone w → wp (show_last_logs E limit) (λ _ _, False) (λ _ w', gone w') w.
Proof.
  unfold gone. intros Hw. unfold show_last_logs.
  wp_run_all; unfold record; simpl; congruence.
Qed.

Lemma show_failed_pings_no_table (w : world) :
  gone w → wp (show_failed_pings E) (λ _ _, False) (λ _ w', gone w') w.
Proof.
  unfold gone. intros Hw. unfold show_failed_pings.
  wp_run_all; unfold record; simpl; congruence.
Qed.

End NoTable.

Lemma wp_fails {A} (m : M A) (P : world → Prop) (w : world) :
  wp m (λ _ _, False) (λ _, P) w → (∀ a, (m w).1 ≠ inl a) ∧ P (m w).2.
Proof. unfold wp. by destruct (m w) as [[a|x] w']. Qed.

(** X2: while the table does not exist (before [init_db] has run),
    [insert_log], [show_last_logs] and [show_failed_pings] never return
    normally and never create the table, in any environment; with no
    interrupt and a usable file each one raises the "no such table"
    [OperationalError] from its statement, right after connecting. *)
Theorem operations_need_the_table
    (E : environment) (e : entry) (limit : Z) (w : world) :
  db w = None →
  Forall (λ o : (unit + exn) * world, o.1 ≠ inl tt ∧ db o.2 = None)
    [insert_log E e w; show_last_logs E limit w; show_failed_pings E w] ∧
  (calm E →
   insert_log E e w = refused w (Insert e) (OperationalError NoSuchTable) ∧
   show_last_logs E limit w
     = refused w (SelectRecent limit) (OperationalError NoSuchTable) ∧
   show_failed_pings E w = refused w SelectDown (OperationalError NoSuchTable)).
Proof.
  intros Hw. split.
  - repeat apply Forall_cons_2; [| | |apply Forall_nil_2].
    + destruct (wp_fails _ _ _ (insert_log_no_table E e w Hw)); auto.
    + destruct (wp_fails _ _ _ (show_last_logs_no_table E limit w Hw)); auto.
    + destruct (wp_fails _ _ _ (show_failed_pings_no_table E w Hw)); auto.
  - intros Hcalm. unfold refused. rewrite Hw. split; [|split].
    + unfold insert_log, mbind, M_bind, sqlite3_connect, execute.
      calm_call Hcalm. calm_call Hcalm. rewrite Hw. unfold record. simpl.
      by rewrite <- app_assoc.
    + unfold show_last_logs, mbind, M_bind, sqlite3_connect, execute.
      calm_call Hcalm. calm_call Hcalm. rewrite Hw. unfold record. simpl.
      by rewrite <- app_assoc.
    + unfold show_failed_pings, mbind, M_bind, sqlite3_connect, execute.
      calm_call Hcalm. calm_call Hcalm. rewrite Hw. unfold record. simpl.
      by rewrite <- app_assoc.
Qed.

Lemma operations_need_the_table_witness :
  db fresh_world = None ∧
  (insert_log unreachable_env up_entry fresh_world).1
    = inr (OperationalError NoSuchTable) ∧
  db (show_last_logs unreachable_env 5 fresh_world).2 = None.
Proof.
  destruct (operations_need_the_table unreachable_env up_entry 5 fresh_world
              eq_refl) as (Hall & Hcalm).
  split; [reflexivity|]. split.
  - destruct Hcalm as (-> & _); [by intros h c|reflexivity].
  - apply Forall_cons_1 in Hall as (_ & Hall).
    apply Forall_cons_1 in Hall as ((_ & Hdb) & _). exact Hdb.
Defined.

Lemma new_rowid_room (t : table) :
  (∀ k, is_Some (rows t !! k) → k < INT64_MAX) → seq t < INT64_MAX →
  ∃ id, new_rowid t = inl id.
Proof.
  intros Hkeys Hseq. unfold new_rowid, after_last_rowid.
  destruct (rowids (rows t)) as [|k0 ks] eqn:Hids.
  - rewrite bool_decide_eq_false_2 by lia. by eexists.
  - assert (foldr Z.max k0 ks ≤ INT64_MAX - 1) as Hlast.
    { apply foldr_max_le.
      - assert (k0 < INT64_MAX); [|lia].
        apply Hkeys, elem_of_rowids. rewrite Hids. by left.
      - intros k Hk. assert (k < INT64_MAX); [|lia].
        apply Hkeys, elem_of_rowids. rewrite Hids. by right. }
    rewrite bool_decide_eq_false_2 by lia.
    rewrite bool_decide_eq_false_2 by lia. by eexists.
Qed.

(** X3: with the table present, no interrupt and a usable file, a statement
    the engine refuses leaves nothing behind.  [insert_log] of an entry
    with a NaN reading raises [IntegrityError] (SQLite stores NaN as NULL,
    which the NOT NULL columns reject); once the largest 64-bit id is in
    use it raises the "database full" [OperationalError];
    [show_last_logs] with a limit outside the 64-bit range raises
    [OverflowError] before printing anything.  In each case the database is
    as it was. *)
Theorem refused_statements_leave_nothing
    (E : environment) (w : world) (t : table) (e : entry) (limit : Z) :
  calm E → db w = Some t →
  (is_Some (rows t !! INT64_MAX) →
   insert_log E e w = refused w (Insert e) (OperationalError DatabaseFull)) ∧
  ((∀ k, is_Some (rows t !! k) → k < INT64_MAX) → seq t < INT64_MAX →
   is_nan (e_cpu e) = true ∨ is_nan (e_memory e) = true
   ∨ is_nan (e_disk e) = true →
   insert_log E e w = refused w (Insert e) IntegrityError) ∧
  (fits_int64 limit = false →
   show_last_logs E limit w = refused w (SelectRecent limit) OverflowError).
Proof.
  intros Hcalm Hw.
  assert (∀ x, table_insert t e = inr x →
               insert_log E e w = refused w (Insert e) x) as Hrefused.
  { intros x Hx. unfold insert_log, mbind, M_bind, sqlite3_connect, execute.
    calm_call Hcalm. calm_call Hcalm. rewrite Hw, Hx. unfold record, refused.
    simpl. by rewrite Hw, <- app_assoc. }
  split; [|split].
  - intros Hmax. apply Hrefused. unfold table_insert, new_rowid, after_last_rowid.
    apply elem_of_rowids in Hmax.
    destruct (rowids (rows t)) as [|k ks] eqn:Hks; [by apply elem_of_nil in Hmax|].
    rewrite bool_decide_eq_true_2; [done|].
    destruct (foldr_max_ge k ks) as [Hk0 Hrest].
    apply elem_of_cons in Hmax as [->|Hmax]; [done|]. by apply Hrest.
  - intros Hkeys Hseq Hnan. apply Hrefused. unfold table_insert.
    destruct (new_rowid_room t Hkeys Hseq) as (id & ->).
    unfold populated, bind_entry, bind_real. simpl.
    destruct (is_nan (e_cpu e)), (is_nan (e_memory e)), (is_nan (e_disk e));
      try done.
    by destruct Hnan as [?|[?|?]].
  - intros Hlimit. unfold show_last_logs, mbind, M_bind, sqlite3_connect, execute.
    calm_call Hcalm. calm_call Hcalm. rewrite Hw, Hlimit. unfold record, refused.
    simpl. by rewrite Hw, <- app_assoc.
Qed.

Lemma refused_statements_leave_nothing_witness :
  let w := {| db := Some three_rows; trace := [] |} in
  let nan_entry := {| e_ts := "2024-05-01 12:00:00"; e_cpu := nan;
                      e_memory := 40%float; e_disk := 71.5%float;
                      e_pstat := "UP" |} in
  calm quiet_env ∧ db w = Some three_rows ∧
  insert_log quiet_env nan_entry w = refused w (Insert nan_entry) IntegrityError ∧
  show_last_logs quiet_env (INT64_MAX + 1) w
    = refused w (SelectRecent (INT64_MAX + 1)) OverflowError.
Proof.
  intros w nan_entry.
  assert (calm quiet_env) as Hcalm by (by intros h c).
  destruct (refused_statements_leave_nothing
              quiet_env w three_rows nan_entry (INT64_MAX + 1) Hcalm eq_refl)
    as (_ & Hnan & Hlimit).
  split; [exact Hcalm|]. split; [reflexivity|]. split.
  - apply Hnan; [|reflexivity|left; reflexivity].
    intros k [s Hs]. unfold three_rows in Hs. simpl in Hs.
    apply lookup_insert_Some in Hs as [[<- _]|[_ Hs]]; [reflexivity|].
    apply lookup_insert_Some in Hs as [[<- _]|[_ Hs]]; [reflexivity|].
    apply lookup_singleton_Some in Hs as [<- _]. reflexivity.
  - apply Hlimit. reflexivity.
Defined.

(** ** The commit of an insert *)

(** Membership of an event in an explicit list of events. *)
Ltac event_in_list :=
  first
    [ by repeat first [apply list_elem_of_here | apply list_elem_of_further]
    | let H := fresh in
      intros H;
      repeat (apply elem_of_cons in H as [H|H]; [discriminate H|]);
      by apply elem_of_nil in H ].


(** ** From an insert to the report *)

Lemma head_order_by_id_desc (m : gmap Z sample) (id : Z) (s : sample) :
  m !! id = Some s → (∀ k, is_Some (m !! k) → k ≤ id) →
  head (order_by_id_desc (map_to_list m)) = Some (id, s).
Proof.
  intros Hid Htop.
  pose proof (order_by_id_desc_strict (map_to_list m) (NoDup_fst_map_to_list m))
    as Hsorted.
  assert ((id, s) ∈ order_by_id_desc (map_to_list m)) as Hin.
  { rewrite (order_by_id_desc_perm _). by apply elem_of_map_to_list. }
  assert (∀ r, r ∈ order_by_id_desc (map_to_list m) → r.1 ≤ id) as Hle.
  { intros [k v]. rewrite (order_by_id_desc_perm _).
    intros Hr%elem_of_map_to_list. apply Htop. by exists v. }
  destruct (order_by_id_desc (map_to_list m)) as [|x l]; [by apply elem_of_nil in Hin|].
  simpl. f_equal. apply elem_of_cons in Hin as [->|Hin]; [done|].
  exfalso. apply StronglySorted_inv in Hsorted as [_ Hx].
  rewrite Forall_forall in Hx. specialize (Hx _ Hin). simpl in Hx.
  assert (x.1 ≤ id) by (apply Hle; by left). lia.
Qed.

Lemma head_sql_limit {A} (k : Z) (l : list A) :
  k ≠ 0 → head (sql_limit k l) = head l.
Proof.
  intros Hk. unfold sql_limit. case_bool_decide; [done|].
  destruct (Z.to_nat k) as [|n] eqn:Hn; [lia|]. by destruct l.
Qed.

(** X5: an entry that [insert_log] has stored is the most recent row: after
    a call of [insert_log] that returns, the table holds the bound entry
    under the id the counter now shows, the query of [show_last_logs] with
    any limit other than 0 fetches it first, and with no interrupt, a usable
    file and numeric REAL columns [show_last_logs] prints it on the first
    line after its header. *)
Theorem inserted_entry_is_reported_first
    (E : environment) (e : entry) (w w' : world) (limit : Z) :
  insert_log E e w = (inl tt, w') → limit ≠ 0 →
  ∃ t' rest,
    db w' = Some t' ∧
    rows t' !! seq t' = Some (bind_entry e) ∧
    select_recent limit t' = (seq t', bind_entry e) :: rest ∧
    (calm E → fits_int64 limit = true → real_columns t' →
     show_last_logs E limit w' =
       (inl tt,
        {| db := db w';
           trace := trace w'
                    ++ [Ev Connect None; Ev (Execute (SelectRecent limit)) None;
                        Ev Close None; Ev (Print (LLastHeader limit)) None;
                        Ev (Print (LRow (seq t', bind_entry e))) None]
                    ++ ((λ r, Ev (Print (LRow r)) None) <$> rest) |})).
Proof.
  intros Hrun Hlimit.
  pose proof (insert_log_db E e w) as Hdb. rewrite Hrun in Hdb. simpl in Hdb.
  destruct Hdb as [[_ Hr]|(t & t' & Ht & Hins & Ht')]; [done|].
  apply table_insert_spec in Hins as (id & Hrows & Hseq & _ & _ & Hkeys & _).
  assert (rows t' !! seq t' = Some (bind_entry e)) as Hid.
  { rewrite Hrows, Hseq. apply lookup_insert_eq. }
  assert (head (select_recent limit t') = Some (seq t', bind_entry e)) as Hhead.
  { unfold select_recent. rewrite head_sql_limit by done.
    apply head_order_by_id_desc; [done|].
    intros k [s Hk]. rewrite Hrows in Hk.
    apply lookup_insert_Some in Hk as [[<- _]|[_ Hk]]; [lia|].
    assert (k < id); [|lia]. apply Hkeys. by exists s. }
  destruct (select_recent limit t') as [|r rest] eqn:Hsel; [done|].
  injection Hhead as ->.
  exists t', rest. split; [done|]. split; [done|]. split; [done|].
  intros Hcalm Hfits Hreal.
  rewrite (show_last_logs_calm E w' t' limit Hcalm Ht' Hreal Hfits), Hsel.
  done.
Qed.

Lemma inserted_entry_is_reported_first_witness :
  let w := {| db := Some three_rows; trace := [] |} in
  let w' := (insert_log quiet_env up_entry w).2 in
  insert_log quiet_env up_entry w = (inl tt, w') ∧ 1 ≠ 0 ∧
  ∃ t', db w' = Some t' ∧ select_recent 1 t' = [(4, up_sample)].
Proof.
  intros w w'.
  assert (insert_log quiet_env up_entry w = (inl tt, w')) as Hrun
    by (vm_compute; reflexivity).
  assert (1 ≠ 0) as Hlimit by lia.
  split; [exact Hrun|]. split; [exact Hlimit|].
  destruct (inserted_entry_is_reported_first quiet_env up_entry w w' 1 Hrun Hlimit)
    as (t' & rest & Hdb & _ & _ & _).
  exists t'. split; [exact Hdb|].
  assert (db w' = Some {| rows := <[4 := up_sample]> (rows three_rows); seq := 4 |})
    as Hdb' by (vm_compute; reflexivity).
  rewrite Hdb' in Hdb. injection Hdb as <-. vm_compute. reflexivity.
Defined.

(** ** The ids of a run *)

Lemma table_insert_next (t t' : table) (e : entry) :
  counter_covers t → table_insert t e = inl t' →
  seq t' = seq t + 1 ∧ rows t' = <[seq t + 1 := bind_entry e]> (rows t) ∧
  counter_covers t'.
Proof.
  intros [Hseq Hkeys] Hins.
  assert (new_rowid t = inl (seq t + 1)) as Hnew.
  { unfold table_insert in Hins.
    destruct (new_rowid t) as [id|] eqn:Hnew; [|done]. f_equal.
    unfold new_rowid, after_last_rowid in Hnew.
    destruct (rowids (rows t)) as [|k0 ks] eqn:Hids.
    - case_bool_decide; [done|]. injection Hnew as <-. lia.
    - assert (foldr Z.max k0 ks ≤ seq t) as Hlast.
      { apply foldr_max_le.
        - apply Hkeys, elem_of_rowids. rewrite Hids. by left.
        - intros k Hk. apply Hkeys, elem_of_rowids. rewrite Hids. by right. }
      repeat case_bool_decide; try done. injection Hnew as <-. lia. }
  unfold table_insert in Hins. rewrite Hnew in Hins.
  destruct (populated (bind_entry e)); [|done]. injection Hins as <-. simpl.
  split; [done|]. split; [done|]. split; simpl; [lia|].
  intros k [s Hk]. apply lookup_insert_Some in Hk as [[<- _]|[_ Hk]]; [lia|].
  assert (k ≤ seq t); [|lia]. apply Hkeys. by exists s.
Qed.

Lemma insert_all_next (t t' : table) (es : list entry) :
  counter_covers t → insert_all t es = Some t' →
  counter_covers t' ∧ seq t' = seq t + Z.of_nat (length es) ∧
  ∀ k, is_Some (rows t' !! k)
       ↔ is_Some (rows t !! k) ∨ seq t < k ≤ seq t + Z.of_nat (length es).
Proof.
  revert t. induction es as [|e es IH]; intros t Ht; simpl.
  - intros [= <-]. split; [done|]. split; [lia|]. intros k. split; [by left|].
    intros [?|?]; [done|lia].
  - destruct (table_insert t e) as [t1|] eqn:Hins; [|done]. intros Hall.
    destruct (table_insert_next t t1 e Ht Hins) as (Hseq1 & Hrows1 & Ht1).
    destruct (IH t1 Ht1 Hall) as (Ht' & Hseq' & Hkeys').
    split; [done|]. split; [lia|]. intros k. rewrite Hkeys', Hrows1.
    rewrite lookup_insert_is_Some. destruct Ht as [_ Hkeys]. split.
    + intros [[<-|[_ Hk]]|Hk]; [right; lia|by left|right; lia].
    + intros [Hk|Hk].
      * left. destruct (decide (seq t + 1 = k)) as [?|?]; [by left|by right].
      * destruct (decide (seq t + 1 = k)) as [?|?]; [left; by left|right; lia].
Qed.

(** X6: a run of [main] that returns normally gives its [samples] samples
    the next [samples] ids in a row.  If the counter of the table covers
    its ids (as in any table only this program wrote; a missing table
    counts as empty), the ids after the run are the old ones and exactly
    [c + 1, ..., c + samples], with [c] the old counter, and the counter
    ends at [c + samples]; starting from a new database the ids are exactly
    [1, ..., samples]. *)
Theorem completed_run_adds_consecutive_ids
    (E : environment) (samples interval : Z) (w w' : world) :
  let t0 := default empty_table (db w) in
  main E samples interval w = (inl tt, w') → 0 ≤ samples → counter_covers t0 →
  ∃ t', db w' = Some t' ∧ seq t' = seq t0 + samples ∧ counter_covers t' ∧
    (∀ k, is_Some (rows t' !! k)
          ↔ is_Some (rows t0 !! k) ∨ seq t0 < k ≤ seq t0 + samples) ∧
    (rows_of (db w) = ∅ → seq t0 = 0 →
     ∀ k, is_Some (rows t' !! k) ↔ 1 ≤ k ≤ samples).
Proof.
  intros t0 Hrun Hsamples Ht0.
  pose proof (wp_run _ _ _ _ _ _ (main_completes E samples interval w) Hrun)
    as (ticks & t' & Hlen & Hall & Hdb & _).
  destruct (insert_all_next t0 t' ticks.*1 Ht0 Hall) as (Ht' & Hseq & Hkeys).
  rewrite length_fmap, Hlen, Z2Nat.id in Hseq, Hkeys by done.
  exists t'. split; [done|]. split; [done|]. split; [done|]. split; [done|].
  intros Hempty Hzero k. rewrite Hkeys, Hzero.
  assert (rows t0 = ∅) as ->.
  { subst t0. by destruct (db w). }
  rewrite lookup_empty. split.
  - intros [[? ?]|?]; [done|lia].
  - intros ?. right. lia.
Qed.

Lemma completed_run_adds_consecutive_ids_witness :
  let w' := (main unreachable_env 3 0 fresh_world).2 in
  main unreachable_env 3 0 fresh_world = (inl tt, w') ∧ 0 ≤ 3 ∧
  counter_covers (default empty_table (db fresh_world)) ∧
  ∃ t', db w' = Some t' ∧ seq t' = 3 ∧
        ∀ k, is_Some (rows t' !! k) ↔ 1 ≤ k ≤ 3.
Proof.
  intros w'.
  assert (main unreachable_env 3 0 fresh_world = (inl tt, w')) as Hrun
    by (vm_compute; reflexivity).
  assert (0 ≤ 3) as Hsamples by lia.
  assert (counter_covers (default empty_table (db fresh_world))) as Hcovers.
  { split; [reflexivity|]. intros k [s Hk]. simpl in Hk.
    rewrite lookup_empty in Hk. discriminate Hk. }
  split; [exact Hrun|]. split; [exact Hsamples|]. split; [exact Hcovers|].
  destruct (completed_run_adds_consecutive_ids
              unreachable_env 3 0 fresh_world w' Hrun Hsamples Hcovers)
    as (t' & Hdb & Hseq & _ & _ & Hfresh).
  exists t'. split; [exact Hdb|]. split; [exact Hseq|].
  apply Hfresh; reflexivity.
Defined.

(** ** Progress lines and stored rows *)

Lemma count_progress_app (l1 l2 : list event) :
  count_progress (l1 ++ l2) = (count_progress l1 + count_progress l2)%nat.
Proof.
  induction l1 as [|[c o] l1 IH]; simpl; [done|].
  destruct c as [| | | | | |l| | | |]; simpl; try done.
  destruct l; simpl; try done. destruct o; simpl; lia.
Qed.

(** Closes [tally h0 r0 k' w'] for the world an execution path leaves. *)
Ltac tally_solve Hw :=
  let seg := fresh "seg" in
  let Htr := fresh "Htr" in
  let Hsize := fresh "Hsize" in
  destruct Hw as (seg & Htr & Hsize);
  eexists; simpl; rewrite Htr; rewrite <- ?app_assoc; simpl;
  split; [reflexivity|];
  rewrite ?count_progress_app; simpl;
  rewrite ?rows_of_create;
  repeat match goal with
    | H : table_insert _ _ = inl _ |- _ => apply table_insert_size in H
    | H : db _ = _ |- _ => rewrite H in Hsize; simpl in Hsize
    end;
  lia.

Ltac tally_within_solve Hw :=
  lazymatch goal with
  | |- tally_within _ _ _ =>
      first [ exists 0%nat; split; [lia|]; tally_solve Hw
            | exists 1%nat; split; [lia|]; tally_solve Hw ]
  | |- tally _ _ _ _ => tally_solve Hw
  end.

Section Tally.

Context (E : environment) (h0 : list event) (r0 : nat).

Lemma get_system_info_tally (w : world) :
  tally h0 r0 0 w →
  wp (get_system_info E) (λ _ w', tally h0 r0 0 w') (λ _, tally_within h0 r0) w.
Proof.
  intros Hw. unfold get_system_info, ping_status.
  wp_run_all; tally_within_solve Hw.
Qed.

Lemma insert_log_tally (e : entry) (w : world) :
  tally h0 r0 0 w →
  wp (insert_log E e) (λ _ w', tally h0 r0 1 w') (λ _, tally_within h0 r0) w.
Proof.
  intros Hw. unfold insert_log. wp_run_all; tally_within_solve Hw.
Qed.

Lemma main_iteration_tally (samples interval i : Z) (w : world) :
  tally h0 r0 0 w →
  wp (main_iteration E samples interval i)
     (λ _ w', tally h0 r0 0 w') (λ _, tally_within h0 r0) w.
Proof.
  intros Hw. unfold main_iteration.
  apply wp_bind.
  eapply wp_mono; [apply (get_system_info_tally w Hw)| |done].
  intros e w1 Hw1. simpl.
  apply wp_bind.
  eapply wp_mono; [apply (insert_log_tally e w1 Hw1)| |done].
  intros [] w2 Hw2. simpl.
  wp_run_all; tally_within_solve Hw2.
Qed.

Lemma report_tally (empty : line) (fetched : list row) (w : world) :
  (∀ i n e, empty ≠ LProgress i n e) →
  tally h0 r0 0 w →
  wp (match fetched with
      | [] => print E empty
      | _ => for_each (print_row E) fetched
      end) (λ _ w', tally h0 r0 0 w') (λ _, tally_within h0 r0) w.
Proof.
  intros Hempty Hw. destruct fetched as [|r l].
  - destruct empty; try (by edestruct Hempty);
      wp_run_all; tally_within_solve Hw.
  - apply (wp_for_each (λ _ w', tally h0 r0 0 w')); [done|].
    intros _ x w' Hw'. wp_run_all; tally_within_solve Hw'.
Qed.

Lemma main_tally (samples interval : Z) (w : world) :
  tally h0 r0 0 w →
  wp (main E samples interval)
     (λ _ w', tally h0 r0 0 w') (λ _, tally_within h0 r0) w.
Proof.
  intros Hw. unfold main, init_db. unfold_calls.
  do 12 (try wp_step; try tally_within_solve Hw).
  match goal with
  | |- wp _ _ _ ?W => assert (tally h0 r0 0 W) as HW by tally_solve Hw;
                      revert HW; generalize W; intros W' HW
  end.
  apply wp_bind.
  eapply wp_mono with (X := λ _, tally_within h0 r0);
    [apply (wp_for_range (λ _ w', tally h0 r0 0 w')); [done|]
    | |done].
  - intros i w1 _ Hw1. by apply main_iteration_tally.
  - intros [] w1 Hw1. simpl. unfold show_last_logs. unfold_calls.
    do 8 (try wp_step; try tally_within_solve Hw1).
    match goal with
    | |- wp _ _ _ ?W => assert (tally h0 r0 0 W) as HW1 by tally_solve Hw1
    end.
    by apply (report_tally LNoData).
Qed.

Lemma script_tally (samples interval : Z) (w : world) :
  tally h0 r0 0 w →
  wp (__main__ E samples interval)
     (λ _, tally_within h0 r0) (λ _, tally_within h0 r0) w.
Proof.
  intros Hw. unfold __main__. apply wp_try_except.
  eapply wp_mono; [apply (main_tally samples interval w Hw)| |].
  - intros [] w' Hw'. exists 0%nat. split; [lia|done].
  - intros e w' Hx. simpl in Hx. destruct Hx as (k & Hk & Hw'). simpl.
    destruct e; try (by exists k).
    wp_run_all; exists k; (split; [done|]); tally_solve Hw'.
Qed.

End Tally.

(** X7: however a run of the script ends (completion, interrupt, storage
    error, in any environment), the rows it has added match the progress
    lines it has printed: every progress line stands for a stored row, and
    at most one stored row has no progress line (the run was cut between
    the insert and the line).  When [main] returns normally the two
    numbers are equal. *)
Theorem progress_lines_match_rows
    (E : environment) (samples interval : Z) (w : world) :
  let w' := (__main__ E samples interval w).2 in
  ∃ seg k, trace w' = trace w ++ seg ∧ (k ≤ 1)%nat ∧
    size (rows_of (db w'))
      = (size (rows_of (db w)) + count_progress seg + k)%nat ∧
    ((main E samples interval w).1 = inl tt → k = 0%nat).
Proof.
  intros w'.
  assert (tally (trace w) (size (rows_of (db w))) 0 w) as Hw.
  { exists []. rewrite app_nil_r. split; [done|]. simpl. lia. }
  destruct (main E samples interval w) as [[[]|x] w1] eqn:Hmain.
  - pose proof (wp_run _ _ _ _ _ _ (main_tally E _ _ samples interval w Hw) Hmain)
      as (seg & Htr & Hsize).
    assert (w' = w1) as ->.
    { subst w'. unfold __main__, try_except. by rewrite Hmain. }
    exists seg, 0%nat. split; [done|]. split; [lia|]. split; [done|]. done.
  - pose proof (wp_always _ (tally_within (trace w) (size (rows_of (db w)))) w
                  (script_tally E _ _ samples interval w Hw))
      as (k & Hk & seg & Htr & Hsize).
    exists seg, k. split; [done|]. split; [done|]. split; [done|]. done.
Qed.

(** ** The calls a run makes *)

(** Closes [only_calls P h0 w'] for the world an execution path leaves. *)
Ltac calls_solve Hw :=
  let seg := fresh "seg" in
  let Htr := fresh "Htr" in
  let Hok := fresh "Hok" in
  destruct Hw as (seg & Htr & Hok);
  unfold record; eexists; simpl; rewrite Htr; rewrite <- ?app_assoc; simpl;
  split; [reflexivity|];
  first [ assumption
        | apply Forall_app; split;
          [ assumption
          | repeat (apply Forall_cons_2;
                    [first [done | split; first [done|lia] | lia]|]);
            apply Forall_nil_2 ] ].

Section Calls.

Context (E : environment) (samples interval : Z) (h0 : list event).

Let within (w : world) : Prop := only_calls (main_call E samples interval) h0 w.

Lemma get_system_info_calls (w : world) :
  within w → wp (get_system_info E) (λ _, within) (λ _, within) w.
Proof.
  unfold within. intros Hw. unfold get_system_info, ping_status.
  wp_run_all; calls_solve Hw.
Qed.

Lemma init_db_calls (w : world) :
  within w → wp (init_db E) (λ _, within) (λ _, within) w.
Proof.
  unfold within. intros Hw. unfold init_db. wp_run_all; calls_solve Hw.
Qed.

Lemma insert_log_calls (e : entry) (w : world) :
  within w → wp (insert_log E e) (λ _, within) (λ _, within) w.
Proof.
  unfold within. intros Hw. unfold insert_log. wp_run_all; calls_solve Hw.
Qed.

Lemma show_last_logs_calls (w : world) :
  within w → wp (show_last_logs E 5) (λ _, within) (λ _, within) w.
Proof.
  unfold within. intros Hw. unfold show_last_logs.
  wp_run_all; try calls_solve Hw.
  all: match goal with
       | |- wp _ _ _ ?W =>
           assert (only_calls (main_call E samples interval) h0 W) as HW
             by calls_solve Hw;
           revert HW; generalize W; intros W' HW
       end.
  all: match goal with
       | |- context [select_recent ?k ?t] => destruct (select_recent k t) as [|r l]
       end.
  - wp_run_all; calls_solve HW.
  - apply (wp_for_each (λ _ w', only_calls (main_call E samples interval) h0 w'));
      [done|].
    intros _ x w' Hw'. wp_run_all; calls_solve Hw'.
Qed.

Lemma main_iteration_calls (i : Z) (w : world) :
  0 ≤ i < samples →
  within w → wp (main_iteration E samples interval i) (λ _, within) (λ _, within) w.
Proof.
  intros Hi Hw. unfold main_iteration.
  apply wp_bind. eapply wp_mono; [by apply get_system_info_calls| |done].
  intros e w1 Hw1. simpl.
  apply wp_bind. eapply wp_mono; [by apply insert_log_calls| |done].
  intros [] w2 Hw2. simpl. unfold within in *.
  wp_run_all;
    repeat match goal with
      | H : bool_decide _ = true |- _ => apply bool_decide_eq_true_1 in H
      end;
    calls_solve Hw2.
Qed.

Lemma main_calls (w : world) :
  within w → wp (main E samples interval) (λ _, within) (λ _, within) w.
Proof.
  intros Hw. unfold main.
  apply wp_bind. unfold_calls. wp_step; [unfold within in *; calls_solve Hw|].
  apply wp_bind. eapply wp_mono; [apply init_db_calls| |done].
  { unfold within in *. calls_solve Hw. }
  intros [] w1 Hw1. simpl.
  apply wp_bind. wp_step; [unfold within in *; calls_solve Hw1|].
  apply wp_bind.
  eapply wp_mono with (X := λ _, within);
    [apply (wp_for_range (λ _, within)); [unfold within in *; calls_solve Hw1|]
    | |done].
  - intros i w2 Hi Hw2. apply main_iteration_calls; [lia|done].
  - intros [] w2 Hw2. simpl. by apply show_last_logs_calls.
Qed.

End Calls.

(** X8: what a run of [main] never does.  In every environment and however
    the run ends, each external call it makes is one of [main_call]: it
    runs no command but the one-packet ping of [PING_HOST] with timeout 3,
    waits only for [interval] seconds and only when more than one sample is
    asked for, numbers its progress lines within 1..[samples], issues no
    statement but CREATE TABLE, INSERT and the recent-rows query with limit
    5, and prints neither the failed-ping report nor the interrupt
    notice. *)
Theorem main_makes_only_its_calls
    (E : environment) (samples interval : Z) (w : world) :
  ∃ seg, trace (main E samples interval w).2 = trace w ++ seg ∧
         Forall (λ ev, main_call E samples interval (ev_call ev)) seg.
Proof.
  apply (wp_always _ (only_calls (main_call E samples interval) (trace w))).
  apply main_calls. exists []. by rewrite app_nil_r.
Qed.

(** X9: the entry point catches interrupts and nothing else.  When [main]
    returns, or raises anything but [KeyboardInterrupt], the script ends
    exactly as [main] did, the exception passing through.  When [main]
    raises [KeyboardInterrupt], wherever the interrupt arrived, the script
    makes one more call, the notice, leaves the database as [main] left it,
    and returns normally unless a second interrupt arrives during the
    notice.  So the notice is in the trace of a run exactly when [main] was
    interrupted. *)
Theorem entry_point_catches_only_interrupts
    (E : environment) (samples interval : Z) (w : world) :
  let m := main E samples interval w in
  let s := __main__ E samples interval w in
  (m.1 = inl tt → s = m) ∧
  (∀ x, m.1 = inr x → x ≠ KeyboardInterrupt → s = m) ∧
  (m.1 = inr KeyboardInterrupt →
   ∃ o, s.2 = record m.2 (Print LInterrupted) o ∧
        (o = None ∧ s.1 = inl tt
         ∨ o = Some KeyboardInterrupt ∧ s.1 = inr KeyboardInterrupt)) ∧
  ∃ seg, trace s.2 = trace w ++ seg ∧
         ((∃ o, Ev (Print LInterrupted) o ∈ seg) ↔ m.1 = inr KeyboardInterrupt).
Proof.
  intros m s.
  assert (∃ seg, trace m.2 = trace w ++ seg ∧
                 ∀ o, Ev (Print LInterrupted) o ∉ seg) as (seg & Htr & Hnotice).
  { assert (only_calls (main_call E samples interval) (trace w) w) as Hw.
    { exists []. by rewrite app_nil_r. }
    pose proof (wp_always _ (only_calls (main_call E samples interval) (trace w)) w
                  (main_calls E samples interval (trace w) w Hw))
      as (seg & Htr & Hall).
    exists seg. split; [done|]. intros o Hin.
    rewrite Forall_forall in Hall. by apply (Hall _ Hin). }
  assert (m.1 = inr KeyboardInterrupt →
          ∃ o, s.2 = record m.2 (Print LInterrupted) o ∧
               (o = None ∧ s.1 = inl tt
                ∨ o = Some KeyboardInterrupt ∧ s.1 = inr KeyboardInterrupt))
    as Hcaught.
  { subst m s. unfold __main__, try_except.
    destruct (main E samples interval w) as [[[]|x] w1]; simpl; [done|].
    intros [= ->]. unfold print, external.
    destruct (sigint E (trace w1) (Print LInterrupted)); simpl; eauto. }
  assert (∀ r, m.1 = r → r ≠ inr KeyboardInterrupt → s = m) as Hpass.
  { subst m s. unfold __main__, try_except.
    destruct (main E samples interval w) as [[[]|x] w1]; simpl; [done|].
    intros r <- Hx. by destruct x. }
  split; [intros Hm; by apply (Hpass _ Hm)|].
  split; [intros x Hm Hx; apply (Hpass _ Hm); congruence|].
  split; [done|].
  assert (m.1 = inr KeyboardInterrupt ∨ m.1 ≠ inr KeyboardInterrupt)
    as [Hki|Hother].
  { destruct m.1 as [[]|x]; [by right|]. destruct x; (by left) || by right. }
  - destruct (Hcaught Hki) as (o & -> & _). unfold record. simpl.
    exists (seg ++ [Ev (Print LInterrupted) o]).
    rewrite Htr, <- app_assoc. split; [done|]. split; [done|].
    intros _. exists o. apply elem_of_app. right. by left.
  - rewrite (Hpass _ eq_refl Hother). exists seg. split; [done|]. split; [|done].
    intros [o Hin]. by destruct (Hnotice o).
Qed.

(** ** Tables the reports can print *)

Lemma bound_entry_formattable (e : entry) :
  populated (bind_entry e) = true → formattable (bind_entry e).
Proof.
  unfold populated, bind_entry, bind_real, formattable, format_row. simpl.
  intros Hpop id.
  by destruct (is_nan (e_cpu e)), (is_nan (e_memory e)), (is_nan (e_disk e)).
Qed.

Lemma kept_printable (d d' : database) :
  kept formattable d d' → printable d → printable d'.
Proof.
  intros (_ & Hsub & Hnew) Hd t' -> id s Hs.
  destruct (rows_of d !! id) as [s0|] eqn:Hold.
  - assert (rows_of (Some t') !! id = Some s0) as Hs0 by by eapply lookup_weaken.
    simpl in Hs0. rewrite Hs in Hs0. injection Hs0 as ->.
    destruct d as [t|]; [|simpl in Hold; by rewrite lookup_empty in Hold].
    by apply (Hd t eq_refl id).
  - by apply (Hnew id s).
Qed.

Lemma for_each_print_formats (E : environment) (l : list row) (w : world) :
  Forall (λ r, format_row r = None) l →
  wp (for_each (print_row E) l) (λ _ _, True) (λ x _, x = KeyboardInterrupt) w.
Proof.
  intros Hl. revert w. induction Hl as [|r l Hr Hl IH]; intros w; simpl.
  - by apply wp_ret.
  - apply wp_bind. unfold print_row. apply wp_external. rewrite Hr.
    destruct (sigint E (trace w) (Print (LRow r))); [done|]. apply IH.
Qed.

Lemma report_formats (E : environment) (empty : line) (l : list row) (w : world) :
  Forall (λ r, format_row r = None) l →
  wp (match l with
      | [] => print E empty
      | _ => for_each (print_row E) l
      end) (λ _ _, True) (λ x _, x ≠ TypeError ∧ x ≠ ValueError) w.
Proof.
  intros Hl. destruct l as [|r l].
  - wp_run_all; done.
  - eapply wp_mono; [by apply for_each_print_formats|done|].
    by intros x _ ->.
Qed.

Section Printable.

Context (E : environment) (d0 : database).

Let still (w : world) : Prop := kept formattable d0 (db w).

Lemma main_iteration_printable (samples interval i : Z) (w : world) :
  still w →
  wp (main_iteration E samples interval i) (λ _, still) (λ _, still) w.
Proof.
  intros Hw. unfold main_iteration.
  apply wp_bind.
  eapply wp_mono; [by apply (get_system_info_kept E formattable d0)| |done].
  intros e w1 [Hw1 _]. simpl.
  apply wp_bind.
  eapply wp_mono;
    [apply (insert_log_kept E formattable d0 e w1
              (bound_entry_formattable e) Hw1)| |done].
  intros [] w2 Hw2. simpl. unfold still in *.
  wp_run_all; kept_solve Hw2.
Qed.

Lemma main_printable (samples interval : Z) (w : world) :
  still w → wp (main E samples interval) (λ _, still) (λ _, still) w.
Proof.
  intros Hw. unfold main.
  apply wp_bind. unfold_calls. wp_step; [unfold still in *; kept_solve Hw|].
  apply wp_bind. eapply wp_mono; [apply (init_db_kept E formattable d0)| |done].
  { unfold still in *. kept_solve Hw. }
  intros [] w1 Hw1. simpl.
  apply wp_bind. wp_step; [unfold still in *; kept_solve Hw1|].
  apply wp_bind.
  eapply wp_mono with (X := λ _, still);
    [apply (wp_for_range (λ _, still)); [unfold still in *; kept_solve Hw1|]
    | |done].
  - intros i w2 _ Hw2. by apply main_iteration_printable.
  - intros [] w2 Hw2. simpl. by apply (show_last_logs_kept E formattable d0).
Qed.

Lemma script_printable (samples interval : Z) (w : world) :
  still w → wp (__main__ E samples interval) (λ _, still) (λ _, still) w.
Proof.
  intros Hw. unfold __main__. wp_step.
  eapply wp_mono; [by apply main_printable|done|].
  intros e w1 Hw1. simpl. destruct e; auto.
  unfold still in *. wp_run_all; kept_solve Hw1.
Qed.

End Printable.

Lemma show_last_logs_formats (E : environment) (limit : Z) (w : world) :
  printable (db w) →
  wp (show_last_logs E limit) (λ _ _, True)
     (λ x _, x ≠ TypeError ∧ x ≠ ValueError) w.
Proof.
  intros Hw. unfold show_last_logs.
  wp_run_all; try done.
  all: apply report_formats, select_recent_formats, Hw; simpl; congruence.
Qed.

Lemma show_failed_pings_formats (E : environment) (w : world) :
  printable (db w) →
  wp (show_failed_pings E) (λ _ _, True)
     (λ x _, x ≠ TypeError ∧ x ≠ ValueError) w.
Proof.
  intros Hw. unfold show_failed_pings.
  wp_run_all; try done.
  all: apply report_formats, select_down_formats, Hw; simpl; congruence.
Qed.

(** X10: the program keeps its table printable.  If every row of the
    database holds reals in its three REAL columns (in particular if the
    table is missing or empty), then so does every row after any operation
    of the program, in every environment and however the operation ends,
    because [insert_log] only stores readings that are numbers.  On such a
    database neither report ever fails while formatting a row: the
    exceptions of the [:5.1f] format ([TypeError], [ValueError]) are never
    raised. *)
Theorem tables_stay_printable (E : environment) (op : operation) (w : world) :
  printable (db w) →
  let w' := run_operation E op w in
  printable (db w') ∧
  ∀ limit x,
    (show_last_logs E limit w').1 = inr x ∨ (show_failed_pings E w').1 = inr x →
    x ≠ TypeError ∧ x ≠ ValueError.
Proof.
  intros Hw w'.
  assert (kept formattable (db w) (db w)) as Hrefl by apply kept_refl.
  assert (printable (db w')) as Hw'.
  { apply (kept_printable (db w)); [|done]. subst w'.
    destruct op as [|host timeout_sec| |e|limit| |samples interval|samples interval];
      simpl; apply (wp_always _ (λ w1, kept formattable (db w) (db w1))).
    - by apply init_db_kept.
    - by apply ping_status_kept.
    - eapply wp_mono; [by apply (get_system_info_kept E formattable (db w))| |done].
      by intros e w1 [Hw1 _].
    - apply insert_log_kept; [apply bound_entry_formattable|done].
    - by apply show_last_logs_kept.
    - by apply show_failed_pings_kept.
    - by apply main_printable.
    - by apply script_printable. }
  split; [done|]. intros limit x [Hx|Hx].
  - destruct (show_last_logs E limit w') as [r w1] eqn:Hrun. simpl in Hx. subst r.
    exact (wp_run _ _ _ _ _ _ (show_last_logs_formats E limit w' Hw') Hrun).
  - destruct (show_failed_pings E w') as [r w1] eqn:Hrun. simpl in Hx. subst r.
    exact (wp_run _ _ _ _ _ _ (show_failed_pings_formats E w' Hw') Hrun).
Qed.

Lemma tables_stay_printable_witness :
  let w' := run_operation unreachable_env (CallScript 2 0) fresh_world in
  printable (db fresh_world) ∧ size (rows_of (db w')) = 2%nat ∧ printable (db w').
Proof.
  intros w'.
  assert (printable (db fresh_world)) as Hfresh by (intros t Ht; discriminate Ht).
  split; [exact Hfresh|]. split; [vm_compute; reflexivity|].
  exact (proj1 (tables_stay_printable unreachable_env (CallScript 2 0)
                  fresh_world Hfresh)).
Defined.

(** ** A run that is asked for no sample *)

Lemma init_db_rows (E : environment) (R : gmap Z sample) (w : world) :
  rows_of (db w) = R →
  wp (init_db E) (λ _ w', rows_of (db w') = R) (λ _ w', rows_of (db w') = R) w.
Proof.
  intros Hw. unfold init_db.
  wp_run_all; unfold record; simpl; rewrite ?rows_of_create; congruence.
Qed.

Lemma main_no_samples_rows (E : environment) (samples interval : Z) (w : world) :
  samples ≤ 0 →
  rows_of (db (main E samples interval w).2) = rows_of (db w).
Proof.
  intros Hsamples.
  apply (wp_always _ (λ w', rows_of (db w') = rows_of (db w))).
  unfold main. replace (Z.to_nat samples) with 0%nat by lia. simpl for_range.
  apply wp_bind. unfold_calls. wp_step; [done|].
  apply wp_bind. eapply wp_mono; [by apply init_db_rows|simpl|done].
  intros [] w1 Hw1.
  apply wp_bind. wp_step; [done|].
  apply wp_bind. apply wp_ret.
  eapply wp_mono; [apply (show_last_logs_same_db E (db w1) 5); done| |];
    simpl; congruence.
Qed.

(** X11: asked for zero or a negative number of samples, [main] takes no
    sample and does not fail on the count.  However the run ends, the rows
    of the table are exactly those it had; a run that returns has only
    created the table if it was missing and printed the start-up lines and
    the report (no reading, no probe, no insert, no progress line, no
    wait); and with no interrupt, a usable file and a printable table the
    run does return. *)
Theorem run_without_samples
    (E : environment) (samples interval : Z) (w : world) :
  samples ≤ 0 →
  let t0 := default empty_table (db w) in
  rows_of (db (main E samples interval w).2) = rows_of (db w) ∧
  (∀ w', main E samples interval w = (inl tt, w') →
         db w' = Some t0 ∧
         trace w' = trace w ++ init_events samples interval
                    ++ show_last_logs_events 5 (select_recent 5 t0)) ∧
  (calm E → printable (db w) → (main E samples interval w).1 = inl tt).
Proof.
  intros Hsamples t0. split; [by apply main_no_samples_rows|]. split.
  - intros w' Hrun.
    pose proof (wp_run _ _ _ _ _ _ (main_completes E samples interval w) Hrun)
      as (ticks & t' & Hlen & Hall & Hdb & _ & Htr).
    replace (Z.to_nat samples) with 0%nat in Hlen by lia.
    destruct ticks; [|done]. simpl in Hall, Htr. injection Hall as <-. done.
  - intros Hcalm Hw.
    unfold main, mbind, M_bind, print.
    calm_call Hcalm. rewrite (init_db_calm E _ Hcalm). simpl. calm_call Hcalm.
    replace (Z.to_nat samples) with 0%nat by lia. simpl.
    rewrite (show_last_logs_calm E _ t0 5 Hcalm); [done| | |done].
    + simpl. subst t0. by destruct (db w).
    + subst t0. destruct (db w) as [t|] eqn:Hdb; simpl; [by apply Hw|].
      intros id s Hs. simpl in Hs. by rewrite lookup_empty in Hs.
Qed.

Lemma run_without_samples_witness :
  let w := {| db := Some three_rows; trace := [] |} in
  -2 ≤ 0 ∧
  main quiet_env (-2) 10 w =
    (inl tt, {| db := Some three_rows;
                trace := init_events (-2) 10
                         ++ show_last_logs_events 5 (select_recent 5 three_rows) |}).
Proof.
  intros w. assert (-2 ≤ 0) as Hsamples by lia. split; [exact Hsamples|].
  destruct (run_without_samples quiet_env (-2) 10 w Hsamples)
    as (_ & Hreturned & Hreturns).
  assert (calm quiet_env) as Hcalm by (by intros h c).
  assert (printable (db w)) as Hw.
  { intros t [= <-]. exact three_rows_real. }
  pose proof (Hreturns Hcalm Hw) as Hr.
  destruct (main quiet_env (-2) 10 w) as [r w'] eqn:Hrun. simpl in Hr. subst r.
  destruct (Hreturned w' eq_refl) as (Hdb & Htr).
  destruct w' as [d tr]. simpl in Hdb, Htr. by rewrite Hdb, Htr.
Defined.

(** ** How many calls a completed run makes *)

Lemma count_calls_app (p : call → bool) (l1 l2 : list event) :
  count_calls p (l1 ++ l2) = (count_calls p l1 + count_calls p l2)%nat.
Proof. induction l1 as [|ev l1 IH]; simpl; [done|]. rewrite IH. lia. Qed.

Lemma count_calls_report (p : call → bool) (empty : line) (l : list row) :
  (∀ x, p (Print x) = false) → count_calls p (report_lines empty l) = 0%nat.
Proof.
  intros Hp. destruct l as [|r l]; simpl; [by rewrite Hp|].
  rewrite Hp. simpl. induction l as [|r' l IH]; simpl; [done|]. by rewrite Hp.
Qed.

Lemma count_progress_report (empty : line) (l : list row) :
  (∀ i n e, empty ≠ LProgress i n e) →
  count_progress (report_lines empty l) = 0%nat.
Proof.
  intros Hempty. destruct l as [|r l]; simpl.
  - destruct empty; try done. by edestruct Hempty.
  - induction l as [|r' l IH]; simpl; done.
Qed.

Lemma count_sleeps_report (empty : line) (l : list row) :
  count_sleeps (report_lines empty l) = 0%nat.
Proof.
  destruct l as [|r l]; simpl; [done|].
  induction l as [|r' l IH]; simpl; done.
Qed.

Section LoopCounts.

Context (E : environment) (samples interval : Z).

Lemma loop_count_calls (p : call → bool) (k : nat) :
  (∀ i e probe, count_calls p (tick_events E samples interval i e probe) = k) →
  ∀ ticks i,
    count_calls p (loop_events E samples interval i ticks)
    = (k * length ticks)%nat.
Proof.
  intros Htick ticks. induction ticks as [|[e probe] ticks IH]; intros i.
  - simpl. lia.
  - cbn [loop_events length]. rewrite count_calls_app, Htick, IH. lia.
Qed.

Lemma tick_count_calls (p : call → bool) (k : nat) (i : Z) (e : entry)
    (probe : option exn) :
  (∀ secs, p (Sleep secs) = false) →
  (∀ c, count_calls p [Ev Now None; Ev CpuPercent None; Ev VirtualMemory None;
                       Ev DiskUsage None; Ev (SubprocessRun c 3) probe;
                       Ev Connect None; Ev (Execute (Insert e)) None;
                       Ev Commit None; Ev Close None] = k) →
  (∀ x, p (Print x) = false) →
  count_calls p (tick_events E samples interval i e probe) = k.
Proof.
  intros Hsleep Hk Hprint. unfold tick_events.
  rewrite count_calls_app.
  replace (count_calls p (if bool_decide (i < samples - 1)
                          then [Ev (Sleep interval) None] else []))
    with 0%nat by (case_bool_decide; simpl; by rewrite ?Hsleep).
  rewrite <- (Hk (ping_command E PING_HOST)). simpl. rewrite !Hprint. simpl. lia.
Qed.

Lemma loop_count_progress (ticks : list (entry * option exn)) (i : Z) :
  count_progress (loop_events E samples interval i ticks) = length ticks.
Proof.
  revert i. induction ticks as [|[e probe] ticks IH]; intros i; [done|].
  cbn [loop_events length]. rewrite count_progress_app, IH.
  unfold tick_events. rewrite count_progress_app. simpl.
  by case_bool_decide.
Qed.

Lemma loop_count_sleeps (ticks : list (entry * option exn)) (i : Z) :
  i + Z.of_nat (length ticks) ≤ samples →
  Z.of_nat (count_sleeps (loop_events E samples interval i ticks))
  = Z.max 0 (Z.min (Z.of_nat (length ticks)) (samples - 1 - i)).
Proof.
  revert i. induction ticks as [|[e probe] ticks IH]; intros i Hi.
  - simpl. lia.
  - cbn [loop_events length] in *. rewrite count_sleeps_app, Nat2Z.inj_add.
    rewrite IH by lia. unfold tick_events. rewrite count_sleeps_app. simpl.
    case_bool_decide; simpl; lia.
Qed.

End LoopCounts.

(** X12: the work of a run of [main] that returns normally, counted.  For
    [n] samples ([n] is 0 for a negative [samples]) the run starts exactly
    [n] ping processes, executes [n] INSERT statements and prints [n]
    progress lines; it waits [n - 1] times (never after the last sample,
    and not at all for [n = 0]); and it opens [n + 2] connections (the
    schema, one per sample, the report) and closes each of them. *)
Theorem completed_run_counts
    (E : environment) (samples interval : Z) (w w' : world) :
  main E samples interval w = (inl tt, w') →
  let n := Z.to_nat samples in
  ∃ seg, trace w' = trace w ++ seg ∧
    count_calls is_probe seg = n ∧
    count_calls is_insert seg = n ∧
    count_progress seg = n ∧
    count_sleeps seg = (n - 1)%nat ∧
    count_calls is_connect seg = (n + 2)%nat ∧
    count_calls is_close seg = (n + 2)%nat.
Proof.
  intros Hrun n.
  pose proof (wp_run _ _ _ _ _ _ (main_completes E samples interval w) Hrun)
    as (ticks & t' & Hlen & _ & _ & _ & Htr).
  eexists. split; [exact Htr|].
  unfold show_last_logs_events.
  rewrite !count_calls_app, !count_progress_app, !count_sleeps_app.
  rewrite !(count_calls_report _ LNoData), count_progress_report,
    count_sleeps_report by done.
  rewrite loop_count_progress.
  rewrite (loop_count_calls E samples interval is_probe 1)
    by (intros; by apply tick_count_calls).
  rewrite (loop_count_calls E samples interval is_insert 1)
    by (intros; by apply tick_count_calls).
  rewrite (loop_count_calls E samples interval is_connect 1)
    by (intros; by apply tick_count_calls).
  rewrite (loop_count_calls E samples interval is_close 1)
    by (intros; by apply tick_count_calls).
  assert (count_sleeps (loop_events E samples interval 0 ticks) = (n - 1)%nat)
    as Hsleeps.
  { subst n. destruct (decide (samples < 0)) as [Hneg|Hpos].
    - replace (Z.to_nat samples) with 0%nat in * by lia. by destruct ticks.
    - pose proof (loop_count_sleeps E samples interval ticks 0) as Hcount. lia. }
  rewrite Hsleeps. simpl. subst n. repeat split; lia.
Qed.

Lemma completed_run_counts_witness :
  let w' := (main unreachable_env 3 0 fresh_world).2 in
  main unreachable_env 3 0 fresh_world = (inl tt, w') ∧
  ∃ seg, trace w' = trace fresh_world ++ seg ∧
         count_calls is_probe seg = 3%nat ∧ count_sleeps seg = 2%nat ∧
         count_calls is_connect seg = 5%nat ∧ count_calls is_close seg = 5%nat.
Proof.
  intros w'.
  assert (main unreachable_env 3 0 fresh_world = (inl tt, w')) as Hrun
    by (vm_compute; reflexivity).
  split; [exact Hrun|].
  destruct (completed_run_counts unreachable_env 3 0 fresh_world w' Hrun)
    as (seg & Htr & Hprobe & _ & _ & Hsleeps & Hconnect & Hclose).
  exists seg. split; [exact Htr|]. split; [exact Hprobe|].
  split; [exact Hsleeps|]. split; [exact Hconnect|exact Hclose].
Defined.

(** ** The sampler *)

Lemma get_system_info_sample (E : environment) (w : world) :
  wp (get_system_info E)
     (λ e w', ∃ probe,
        trace w' = trace w ++ [Ev Now None; Ev CpuPercent None;
                               Ev VirtualMemory None; Ev DiskUsage None;
                               Ev (SubprocessRun (ping_command E PING_HOST) 3) probe] ∧
        probe_status (e, probe) ∧
        e_ts e = clock_now E (trace w) ∧
        e_cpu e = cpu_percent E (trace w ++ [Ev Now None]) ∧
        e_memory e
          = virtual_memory_percent E (trace w ++ [Ev Now None; Ev CpuPercent None]) ∧
        e_disk e
          = disk_usage_percent E (trace w ++ [Ev Now None; Ev CpuPercent None;
                                              Ev VirtualMemory None]))
     (λ x w', x = KeyboardInterrupt ∧
              ∃ h c, trace w' = h ++ [Ev c (Some KeyboardInterrupt)]) w.
Proof.
  unfold get_system_info, ping_status.
  wp_run_all; unfold record; simpl;
    try (split; [done|]; by eexists _, _);
    try done;
    (eexists; rewrite <- ?app_assoc; simpl; split; [reflexivity|];
     split; [by unfold probe_status|done]).
Qed.

Lemma get_system_info_no_interrupt (E : environment) (w : world) :
  (∀ h c, sigint E h c = false) →
  wp (get_system_info E) (λ _ _, True) (λ _ _, False) w.
Proof.
  intros Hsig. unfold get_system_info, ping_status.
  wp_run_all; try done; congruence.
Qed.


(** ** What the reports fetch after an insert *)

Lemma order_by_id_desc_insert (m : gmap Z sample) (id : Z) (s : sample) :
  (∀ k, is_Some (m !! k) → k < id) →
  order_by_id_desc (map_to_list (<[id := s]> m))
  = (id, s) :: order_by_id_desc (map_to_list m).
Proof.
  intros Hkeys.
  assert (m !! id = None) as Hnone.
  { destruct (m !! id) eqn:Hid; [|done].
    assert (id < id); [|lia]. apply Hkeys. by rewrite Hid. }
  apply (StronglySorted_unique (λ r1 r2 : row, r2.1 < r1.1)).
  - apply order_by_id_desc_strict, NoDup_fst_map_to_list.
  - constructor.
    + apply order_by_id_desc_strict, NoDup_fst_map_to_list.
    + apply Forall_forall. intros [k v]. rewrite (order_by_id_desc_perm _).
      intros Hk%elem_of_map_to_list. simpl. apply Hkeys. by exists v.
  - rewrite !(order_by_id_desc_perm _). by apply map_to_list_insert.
Qed.

(** X14: the reports are views that only grow at the front.  After a call
    of [insert_log] that returns, the recent-rows query fetches the new row
    first and then exactly what it fetched before (one row fewer under a
    positive limit), and the failed-ping query fetches the new row first if
    its status is DOWN, is unchanged otherwise, and keeps its earlier rows
    in their order. *)
Theorem reports_follow_inserts (E : environment) (e : entry) (w w' : world) :
  insert_log E e w = (inl tt, w') →
  ∃ t t', db w = Some t ∧ db w' = Some t' ∧
    (∀ k, k < 0 →
          select_recent k t' = (seq t', bind_entry e) :: select_recent k t) ∧
    (∀ k, 0 < k →
          select_recent k t' = (seq t', bind_entry e) :: select_recent (k - 1) t) ∧
    select_down t'
    = (if bool_decide (e_pstat e = "DOWN") then [(seq t', bind_entry e)] else [])
      ++ select_down t.
Proof.
  intros Hrun.
  pose proof (insert_log_db E e w) as Hdb. rewrite Hrun in Hdb. simpl in Hdb.
  destruct Hdb as [[_ Hr]|(t & t' & Ht & Hins & Ht')]; [done|].
  apply table_insert_spec in Hins as (id & Hrows & Hseq & _ & _ & Hkeys & _).
  pose proof (order_by_id_desc_insert (rows t) id (bind_entry e) Hkeys) as Horder.
  exists t, t'. split; [done|]. split; [done|]. rewrite Hseq.
  split; [|split].
  - intros k Hk. unfold select_recent, sql_limit.
    rewrite !bool_decide_eq_true_2 by done. by rewrite Hrows.
  - intros k Hk. unfold select_recent, sql_limit.
    rewrite !bool_decide_eq_false_2 by lia. rewrite Hrows, Horder.
    replace (Z.to_nat k) with (S (Z.to_nat (k - 1))) by lia. done.
  - rewrite !select_down_filter. unfold select_recent, sql_limit. simpl.
    rewrite Hrows, Horder, filter_cons.
    assert (is_down (id, bind_entry e) = bool_decide (e_pstat e = "DOWN")) as ->
      by done.
    case_bool_decide as Hdown.
    + by rewrite decide_True by done.
    + by rewrite decide_False by done.
Qed.

Lemma reports_follow_inserts_witness :
  let w := {| db := Some three_rows; trace := [] |} in
  let w' := (insert_log quiet_env up_entry w).2 in
  insert_log quiet_env up_entry w = (inl tt, w') ∧
  ∃ t', db w' = Some t' ∧
        select_recent 2 t' = [(4, up_sample); (3, up_sample)] ∧
        select_down t' = [(2, down_sample)].
Proof.
  intros w w'.
  assert (insert_log quiet_env up_entry w = (inl tt, w')) as Hrun
    by (vm_compute; reflexivity).
  split; [exact Hrun|].
  destruct (reports_follow_inserts quiet_env up_entry w w' Hrun)
    as (t & t' & Ht & Ht' & _ & Hrecent & Hdown).
  injection Ht as <-.
  assert (seq t' = 4) as Hseq.
  { assert (db w' = Some {| rows := <[4 := up_sample]> (rows three_rows);
                            seq := 4 |}) as Hdb by (vm_compute; reflexivity).
    rewrite Hdb in Ht'. by injection Ht' as <-. }
  exists t'. split; [exact Ht'|]. rewrite Hseq in Hrecent, Hdown. split.
  - rewrite (Hrecent 2) by lia. f_equal.
  - rewrite Hdown. reflexivity.
Defined.
